(** * A shallow embedding of the dpctl synchronisation engine

    Decoded JSON in Go is an [interface{}] holding one of [nil],
    [bool], [float64], [string], [[]interface{}] or
    [map[string]interface{}].  It is modelled by the inductive [json]
    below; Go's [nil] (absent value, also the decoding of JSON null) is
    [JNull].  A [map[string]interface{}] is an association list whose
    order is one possible iteration order of the Go map.

    Code that can panic (unchecked type assertions, index out of
    range) returns [go A]: [Ret a] or [Panic msg]. *)

From Stdlib Require Import List String Ascii ZArith Bool Lia Permutation Arith Sorted.
Import ListNotations.
Open Scope string_scope.
Open Scope list_scope.

Set Warnings "-register-all".

(** ** Go values *)

Inductive json : Type :=
| JNull
| JBool (b : bool)
| JNum (n : Z)
| JStr (s : string)
| JArr (l : list json)
| JObj (m : list (string * json)).

(** Outcome of Go code that may panic. *)
Inductive go (A : Type) : Type :=
| Ret (a : A)
| Panic (msg : string).
Arguments Ret {A} a.
Arguments Panic {A} msg.

Definition go_bind {A B : Type} (x : go A) (k : A -> go B) : go B :=
  match x with
  | Ret a => k a
  | Panic m => Panic m
  end.

Notation "x <- c ;; k" := (go_bind c (fun x => k))
  (at level 61, c at next level, right associativity).

(** [m[k]] on a [GenericMap]: the value, or [nil] when absent. *)
Fixpoint map_get (k : string) (m : list (string * json)) : json :=
  match m with
  | [] => JNull
  | (k', v) :: m' => if String.eqb k k' then v else map_get k m'
  end.

(** [v, ok := m[k]]. *)
Fixpoint map_lookup (k : string) (m : list (string * json)) : option json :=
  match m with
  | [] => None
  | (k', v) :: m' => if String.eqb k k' then Some v else map_lookup k m'
  end.

(** ** util/json.go: JSONValue *)

(** A path step of [JSONValue(jsonData, p ...interface{})]: a Go
    [string], a Go [int], or a value of another dynamic type. *)
Inductive path_step : Type :=
| PStr (s : string)
| PInt (i : Z)
| POther.

Fixpoint JSONValue (c : json) (p : list path_step) : go json :=
  match p with
  | [] => Ret c
  | PStr k :: p' =>
      match c with
      | JObj m => JSONValue (map_get k m) p'
      | _ => Ret JNull
      end
  | PInt i :: p' =>
      match c with
      | JArr a =>
          (* a[v.(int)]: the Go runtime panics out of range *)
          if (0 <=? i)%Z && (i <? Z.of_nat (List.length a))%Z
          then JSONValue (nth (Z.to_nat i) a JNull) p'
          else Panic "runtime error: index out of range"
      | _ => Ret JNull
      end
  | POther :: _ => Panic "unknown json path type"
  end.

(** ** util/project.go: RefQName and Depend *)

(** [strings.Split(s, sep)] for a one-character separator. *)
Fixpoint split_sep (c : ascii) (s : string) : list string :=
  match s with
  | EmptyString => [""]
  | String x s' =>
      let r := split_sep c s' in
      if Ascii.eqb x c then "" :: r
      else match r with
           | [] => [String x ""]
           | h :: t => String x h :: t
           end
  end.

Definition slash : ascii := "/"%char.

(** Result of [RefQName]: [("", false)] silently, [("", false)] after
    logging an href/value mismatch, or [(qn, true)]. *)
Inductive ref_result : Type :=
| RefNone
| RefMismatch (href value : string)
| RefSome (qn : string).

Definition RefQName (m : list (string * json)) : go ref_result :=
  if negb (Nat.eqb (List.length m) 2) then Ret RefNone else
  match map_lookup "href" m with
  | None => Ret RefNone
  | Some href =>
    match map_lookup "value" m with
    | None => Ret RefNone
    | Some val =>
      match href with
      | JStr hrefs =>
        match val with
        | JStr vals =>
          let s := split_sep slash hrefs in
          if negb (Nat.eqb (List.length s) 6) then Ret RefNone
          else if negb (String.eqb (nth 5 s "") vals)
               then Ret (RefMismatch hrefs vals)
               else Ret (RefSome (nth 4 s "" ++ "/" ++ vals))
        | _ => Panic "interface conversion: value is not string"
        end
      | _ => Panic "interface conversion: href is not string"
      end
    end
  end.

(** One value of the map being scanned by [Depend]: a nested map is
    either a reference block or scanned recursively; in a slice only
    the map elements are considered.  [rec] is [Depend] itself. *)
Definition depend_map_value (rec : json -> go (list string)) (v : json)
  : go (list string) :=
  match v with
  | JObj m =>
      r <- RefQName m ;;
      match r with
      | RefSome qn => Ret [qn]
      | _ => rec v
      end
  | _ => Ret []
  end.

Fixpoint depend_elems (rec : json -> go (list string)) (l : list json)
  : go (list string) :=
  match l with
  | [] => Ret []
  | sv :: l' =>
      d <- depend_map_value rec sv ;;
      d' <- depend_elems rec l' ;;
      Ret (d ++ d')
  end.

Fixpoint depend_fields (rec : json -> go (list string)) (fs : list (string * json))
  : go (list string) :=
  match fs with
  | [] => Ret []
  | (_, v) :: fs' =>
      d1 <- match v with
            | JObj _ => depend_map_value rec v
            | JArr l => depend_elems rec l
            | _ => Ret []
            end ;;
      d2 <- depend_fields rec fs' ;;
      Ret (d1 ++ d2)
  end.

(** [Depend(obj)]: [obj.(GenericMap)] panics on a non-map. *)
Fixpoint depend_val (v : json) : go (list string) :=
  match v with
  | JObj m => depend_fields depend_val m
  | _ => Panic "interface conversion: not a GenericMap"
  end.

Definition Depend (obj : json) : go (list string) := depend_val obj.

(** ** cmd/pull.go: updateLinks *)

Definition s2l : string -> list ascii := list_ascii_of_string.
Definition l2s : list ascii -> string := string_of_list_ascii.

Fixpoint starts_with (p s : list ascii) : bool :=
  match p, s with
  | [], _ => true
  | a :: p', b :: s' => Ascii.eqb a b && starts_with p' s'
  | _ :: _, [] => false
  end.

(** Splice [new] in place of the leftmost occurrence of [old]. *)
Fixpoint replace_first (old new s : list ascii) : list ascii :=
  if starts_with old s then new ++ skipn (List.length old) s
  else match s with
       | [] => []
       | c :: s' => c :: replace_first old new s'
       end.

(** [strings.Replace(s, old, new, 1)]: the string unchanged when
    [old == new], otherwise the leftmost occurrence replaced. *)
Definition Replace1 (s old new : string) : string :=
  if String.eqb old new then s
  else l2s (replace_first (s2l old) (s2l new) (s2l s)).

Definition href_pattern (domain : string) : string :=
  "/mgmt/config/" ++ domain ++ "/".

Definition href_template : string := "/mgmt/config/{domain}/".

(** The slice case of [updateLinks]: only map elements are rewritten;
    [rec] is the recursive call. *)
Fixpoint ul_elems (rec : json -> go json) (l : list json) : go (list json) :=
  match l with
  | [] => Ret []
  | sv :: l' =>
      e <- match sv with
           | JObj _ => rec sv
           | _ => Ret sv
           end ;;
      r <- ul_elems rec l' ;;
      Ret (e :: r)
  end.

(** [switch reflect.ValueOf(v).Kind()] in [updateLinks]: a map is
    rewritten, a slice has its map elements rewritten, any other
    value is left alone. *)
Definition ul_value (rec : json -> go json) (fv : json) : go json :=
  match fv with
  | JObj _ => rec fv
  | JArr l => l2 <- ul_elems rec l ;; Ret (JArr l2)
  | _ => Ret fv
  end.

(** The loop [for k, v := range o] of [updateLinks]. *)
Fixpoint ul_fields (domain : string) (rec : json -> go json)
    (fs : list (string * json)) : go (list (string * json)) :=
  match fs with
  | [] => Ret []
  | (k, fv) :: fs' =>
      if String.eqb k "_links" then ul_fields domain rec fs'
      else if String.eqb k "href" then
        match fv with
        | JStr s =>
            rest <- ul_fields domain rec fs' ;;
            Ret ((k, JStr (Replace1 s (href_pattern domain) href_template)) :: rest)
        | _ => Panic "interface conversion: href is not string"
        end
      else
        nv <- ul_value rec fv ;;
        rest <- ul_fields domain rec fs' ;;
        Ret ((k, nv) :: rest)
  end.

(** [updateLinks] on a value; it is only ever entered on maps. *)
Fixpoint updateLinks_val (domain : string) (v : json) : go json :=
  match v with
  | JObj m => m' <- ul_fields domain (updateLinks_val domain) m ;; Ret (JObj m')
  | _ => Ret v
  end.

(** [updateLinks] takes a [GenericMap]; the result is the map after
    the in-place rewrite. *)
Definition updateLinks (o : list (string * json)) (domain : string)
  : go (list (string * json)) :=
  r <- updateLinks_val domain (JObj o) ;;
  match r with
  | JObj m => Ret m
  | _ => Ret o
  end.

(** Number of positions of [s] at which [p] starts. *)
Fixpoint occ_count (p s : list ascii) : nat :=
  (if starts_with p s then 1 else 0) +
  match s with
  | [] => 0
  | _ :: s' => occ_count p s'
  end.

Definition no_slash (l : list ascii) : Prop := ~ In slash l.

(** Every [href] string anywhere in the value contains the domain
    pattern at most once (overlapping occurrences counted). *)
Definition href_once (domain : string) (k : string) (v : json) : bool :=
  if String.eqb k "href" then
    match v with
    | JStr s => Nat.leb (occ_count (s2l (href_pattern domain)) (s2l s)) 1
    | _ => true
    end
  else true.

Fixpoint hrefs_once_elems (rec : json -> bool) (l : list json) : bool :=
  match l with
  | [] => true
  | x :: l' => rec x && hrefs_once_elems rec l'
  end.

Fixpoint hrefs_once_fields (domain : string) (rec : json -> bool)
    (fs : list (string * json)) : bool :=
  match fs with
  | [] => true
  | (k, v) :: fs' => href_once domain k v && rec v && hrefs_once_fields domain rec fs'
  end.

Fixpoint hrefs_once (domain : string) (v : json) : bool :=
  match v with
  | JObj m => hrefs_once_fields domain (hrefs_once domain) m
  | JArr l => hrefs_once_elems (hrefs_once domain) l
  | _ => true
  end.

(** Proof helper: the part of [l] after its first slash. *)
Fixpoint after_slash (l : list ascii) : list ascii :=
  match l with
  | [] => []
  | c :: l' => if Ascii.eqb c slash then l' else after_slash l'
  end.

(** Proof helper: occurrences of [p] in [x ++ y] starting inside [x]. *)
Fixpoint occ_inner (p x y : list ascii) : nat :=
  match x with
  | [] => 0
  | c :: x' => (if starts_with p (c :: x' ++ y) then 1 else 0) + occ_inner p x' y
  end.

(** Induction on [json] with hypotheses for the nested lists. *)
Section JsonInd.
Variable Pj : json -> Prop.
Hypothesis H_null : Pj JNull.
Hypothesis H_bool : forall b, Pj (JBool b).
Hypothesis H_num : forall n, Pj (JNum n).
Hypothesis H_str : forall s, Pj (JStr s).
Hypothesis H_arr : forall l, Forall Pj l -> Pj (JArr l).
Hypothesis H_obj : forall m, Forall (fun kv => Pj (snd kv)) m -> Pj (JObj m).

Fixpoint json_ind' (v : json) : Pj v :=
  match v with
  | JNull => H_null
  | JBool b => H_bool b
  | JNum n => H_num n
  | JStr s => H_str s
  | JArr l =>
      H_arr l ((fix elems (l : list json) : Forall Pj l :=
                  match l with
                  | [] => Forall_nil _
                  | x :: l' => Forall_cons x (json_ind' x) (elems l')
                  end) l)
  | JObj m =>
      H_obj m ((fix fields (m : list (string * json))
                  : Forall (fun kv => Pj (snd kv)) m :=
                  match m with
                  | [] => Forall_nil _
                  | (k, x) :: m' => Forall_cons (k, x) (json_ind' x) (fields m')
                  end) m)
  end.
End JsonInd.

(** The common prefix of the domain pattern and the template. *)
Definition cfg_prefix : list ascii := s2l "/mgmt/config/".

Ltac peel H := simpl in H; first [discriminate H | injection H as _ H].

(** An href holding the domain pattern twice. *)
Definition twice_href : list (string * json) :=
  [("href", JStr "/mgmt/config/prod//mgmt/config/prod/XMLFW/svc")].

(** ** util/project.go: packages *)

Record Package : Type := {
  Name : string;
  Dir : string;
  Tags : list string;
  Priority : nat
}.

(** [PackageSlice.Less]: [p[i].Priority <= p[j].Priority]. *)
Definition Less (a b : Package) : bool := Nat.leb (Priority a) (Priority b).

(** [sort.Sort] on a slice of at most twelve elements is Go's
    [insertionSort(data, 0, n)]:
    [for i := 1; i < n; i++ { for j := i; j > 0 && Less(j, j-1); j-- { Swap(j, j-1) } }].
    The sorted prefix is kept reversed (its last element first);
    [sink x rp] moves the new element [x] left while [Less(j, j-1)]. *)
Fixpoint sink (x : Package) (rp : list Package) : list Package :=
  match rp with
  | [] => [x]
  | y :: rp' => if Less x y then y :: sink x rp' else x :: rp
  end.

Definition insertionSort (l : list Package) : list Package :=
  rev (fold_left (fun rp x => sink x rp) l []).

(** [PackageSlice.Sort], i.e. [sort.Sort], on the package lists of a
    project.  [sort.Sort] runs [pdqsort], which hands a slice of at most
    [maxInsertion] = 12 elements straight to [insertionSort]: this is that
    path.  Longer slices go through pdqsort's partitioning, which is not
    modelled, so every property below that rests on the order produced
    assumes at most 12 packages. *)
Definition PackageSlice_Sort (l : list Package) : list Package := insertionSort l.

(** [ProjectPackages]: the packages of the [*/metadata.json] glob, in
    glob order, then sorted. *)
Definition ProjectPackages (globbed : list Package) : list Package :=
  PackageSlice_Sort globbed.

Definition HasTag (p : Package) (tag : string) : bool :=
  existsb (String.eqb tag) (Tags p).

Definition FilterPackages (pkgs : list Package) (tags : list string) : list Package :=
  PackageSlice_Sort (filter (fun pkg => forallb (HasTag pkg) tags) pkgs).

(** [os.Stat(f)]: not found, another error, a directory or a file. *)
Inductive stat_result : Type :=
| NotExist
| StatErr (e : string)
| IsDirEntry
| IsFile.

(** [(pkg, err)]: [inl (Some pkg)], [inl None] for [(nil, nil)], or
    [inr err]. *)
Fixpoint first_owner (stat : string -> stat_result) (path : Package -> string)
    (pkgs : list Package) : option Package + string :=
  match pkgs with
  | [] => inl None
  | pkg :: pkgs' =>
      match stat (path pkg) with
      | NotExist => first_owner stat path pkgs'
      | StatErr e => inr e
      | IsDirEntry => inr ("invalid package, " ++ path pkg ++ " is a directory")%string
      | IsFile => inl (Some pkg)
      end
  end.

(** [filepath.Join(pkg.Dir, "objects", qname + ".json")]. *)
Definition object_file (qname : string) (pkg : Package) : string :=
  (Dir pkg ++ "/objects/" ++ qname ++ ".json")%string.

(** [filepath.Join(pkg.Dir, "files", path)]. *)
Definition file_file (path : string) (pkg : Package) : string :=
  (Dir pkg ++ "/files/" ++ path)%string.

Definition GetObjectPackage (stat : string -> stat_result) (pkgs : list Package)
    (qname : string) : option Package + string :=
  first_owner stat (object_file qname) pkgs.

Definition GetFilePackage (stat : string -> stat_result) (pkgs : list Package)
    (path : string) : option Package + string :=
  first_owner stat (file_file path) pkgs.

(** The project of the layout scenario: [A] (priority 10, tags [prod])
    and [B] (priority 5, tags [prod; edge]) both hold [objects/svc/x.json]
    and [files/local/a.txt]. *)
Definition pkgA : Package := {| Name := "A"; Dir := "/p/A"; Tags := ["prod"]; Priority := 10 |}.
Definition pkgB : Package := {| Name := "B"; Dir := "/p/B"; Tags := ["prod"; "edge"]; Priority := 5 |}.

Definition layout_stat (f : string) : stat_result :=
  if existsb (String.eqb f) ["/p/A/objects/svc/x.json"; "/p/B/objects/svc/x.json";
                             "/p/A/files/local/a.txt"; "/p/B/files/local/a.txt"]
  then IsFile else NotExist.

(** Priority order of packages, and its converse. *)
Definition prio_le (a b : Package) : Prop := Priority a <= Priority b.
Definition prio_ge (a b : Package) : Prop := Priority b <= Priority a.

(** ** util (filestore): WalkFileStore *)

(** The errors a walk callback may return: [ErrSkipDir] or another. *)
Inductive walk_err : Type :=
| ErrSkipDir
| WErr (e : string).

(** The remote filestore as [lsFileStore] lists it: at each directory
    the decoded entries of its files and of its subdirectories, each
    subdirectory entry paired with the listing at the path [fn] derives
    from it; or a listing error. *)
Inductive fstree : Type :=
| FSDir (files : list json) (dirs : list (json * fstree))
| FSErr (e : string).

(** The calls the walk makes to its callbacks, in order. *)
Inductive walk_event : Type :=
| EvDir (p : string)
| EvFile (p modified : string) (size : nat).

(** [n[strings.LastIndex(n, "/")+1:]]. *)
Definition last_segment (n : string) : string := last (split_sep slash n) n.

(** The unchecked assertions [v.(string)] and [v.(float64)]. *)
Definition as_string (v : json) : go string :=
  match v with
  | JStr s => Ret s
  | _ => Panic "interface conversion: interface {} is not string"
  end.

Definition as_float64 (v : json) : go Z :=
  match v with
  | JNum z => Ret z
  | _ => Panic "interface conversion: interface {} is not float64"
  end.

Section Walk.
Variable walkDirFn : string -> option walk_err.
Variable walkFileFn : string -> string -> nat -> option walk_err.

(** The loop over the files [f] at path [p]: [n], [m] and [s] are read
    with unchecked assertions; [uint(...)] is [Z.to_nat] (the identity on
    the non-negative sizes; Go leaves the conversion of a negative
    [float64] implementation-dependent). *)
Fixpoint walk_files (p : string) (f : list json)
  : go (list walk_event * option walk_err) :=
  match f with
  | [] => Ret ([], None)
  | a :: f' =>
      vn <- JSONValue a [PStr "name"] ;; n <- as_string vn ;;
      vm <- JSONValue a [PStr "modified"] ;; m <- as_string vm ;;
      vs <- JSONValue a [PStr "size"] ;; s <- as_float64 vs ;;
      let q := (p ++ "/" ++ n)%string in
      match walkFileFn q m (Z.to_nat s) with
      | Some e => Ret ([EvFile q m (Z.to_nat s)], Some e)
      | None =>
          x <- walk_files p f' ;;
          let '(ev, r) := x in Ret (EvFile q m (Z.to_nat s) :: ev, r)
      end
  end.

(** The closure [fn] of [WalkFileStore], at path [p] whose listing is [t]. *)
Fixpoint walk_fn (t : fstree) (p : string) : go (list walk_event * option walk_err) :=
  match t with
  | FSErr e => Ret ([], Some (WErr e))
  | FSDir f d =>
      x1 <- walk_files p f ;;
      let '(ev1, r1) := x1 in
      match r1 with
      | Some e => Ret (ev1, Some e)
      | None =>
          let fix walk_dirs (d : list (json * fstree)) :=
            match d with
            | [] => Ret ([], None)
            | (a, t') :: d' =>
                vn <- JSONValue a [PStr "name"] ;; n <- as_string vn ;;
                let q := (p ++ "/" ++ last_segment n)%string in
                match walkDirFn q with
                | Some ErrSkipDir => Ret ([EvDir q], None)   (* return nil *)
                | Some e => Ret ([EvDir q], Some e)
                | None =>
                    x2 <- walk_fn t' q ;;
                    let '(ev2, r2) := x2 in
                    match r2 with
                    | Some e => Ret (EvDir q :: ev2, Some e)
                    | None =>
                        x3 <- walk_dirs d' ;;
                        let '(ev3, r3) := x3 in Ret (EvDir q :: ev2 ++ ev3, r3)
                    end
                end
            end in
          x <- walk_dirs d ;;
          let '(ev, r) := x in Ret (ev1 ++ ev, r)
      end
  end.

Definition WalkFileStore (root : fstree) (path : string)
  : go (list walk_event * option walk_err) :=
  match walkDirFn path with
  | Some ErrSkipDir => Ret ([EvDir path], None)
  | Some e => Ret ([EvDir path], Some e)
  | None =>
      x <- walk_fn root path ;;
      let '(ev, r) := x in Ret (EvDir path :: ev, r)
  end.

End Walk.

(** Listing entries as the REST interface returns them. *)
Definition file_entry (n m : string) (s : Z) : json :=
  JObj [("name", JStr n); ("modified", JStr m); ("size", JNum s)].

Definition dir_entry (n : string) : json := JObj [("name", JStr n)].

(** A store [local] with subdirectories [a] (file [f1]) and [b] (file
    [f2]), and a directory callback that skips [local/a]. *)
Definition two_dirs : fstree :=
  FSDir [] [(dir_entry "local/a", FSDir [file_entry "f1" "t1" 1] []);
            (dir_entry "local/b", FSDir [file_entry "f2" "t2" 2] [])].

Definition skip_a (p : string) : option walk_err :=
  if String.eqb p "local/a" then Some ErrSkipDir else None.

Definition accept_file (p m : string) (s : nat) : option walk_err := None.

(** ** util/project.go: ObjectInfoSlice.Sort *)

(** [sort.Strings]: strings in increasing byte order (an insertion sort;
    the sorted order of strings is unique). *)
Fixpoint insert_string (x : string) (l : list string) : list string :=
  match l with
  | [] => [x]
  | y :: l' => if String.leb x y then x :: l else y :: insert_string x l'
  end.

Definition sort_Strings (l : list string) : list string :=
  fold_right insert_string [] l.

Section DependSort.
(** An [*ObjectInfo], its [QName()], and the outcome of its [Depend()]:
    [Some deps], or [None] when it returns an error. *)
Variable Obj : Type.
Variable QName : Obj -> string.
Variable ObjDepend : Obj -> option (list string).

(** The map [m := make(map[string]*ObjectInfo)]: every entry is stored
    as [m[obj.QName()] = obj], so it is kept as the list of its values,
    keyed by [QName]. *)
Definition m_get (qn : string) (m : list Obj) : option Obj :=
  find (fun o => String.eqb (QName o) qn) m.

Definition m_delete (qn : string) (m : list Obj) : list Obj :=
  filter (fun o => negb (String.eqb (QName o) qn)) m.

Definition m_put (o : Obj) (m : list Obj) : list Obj :=
  o :: m_delete (QName o) m.

(** [for _, qn := range qns { if o, ok := m[qn]; ok { visit(o) } }],
    threading the map and the emitted prefix [s]. *)
Definition visit_each (visit : Obj -> list Obj -> list Obj -> list Obj * list Obj)
    (qns : list string) (m s : list Obj) : list Obj * list Obj :=
  fold_left (fun acc qn =>
               let '(m, s) := acc in
               match m_get qn m with
               | Some o => visit o m s
               | None => (m, s)
               end) qns (m, s).

(** [addObjAndDependFn(obj)], with a fuel bound on the recursion depth
    (each call removes one entry from [m], so [len(m)] suffices). *)
Fixpoint addObjAndDependFn (fuel : nat) (obj : Obj) (m s : list Obj)
  : list Obj * list Obj :=
  match fuel with
  | 0 => (m, s)
  | S f =>
      let m1 := m_delete (QName obj) m in
      let '(m2, s2) :=
        match ObjDepend obj with
        | Some depend => visit_each (addObjAndDependFn f) depend m1 s
        | None => (m1, s)
        end in
      (m2, s2 ++ [obj])
  end.

(** [ObjectInfoSlice.Sort], as the emitted sequence.  The inner
    [sort.Strings(qns)] re-sorts an already sorted slice and is a no-op. *)
Definition sort_emitted (s : list Obj) : list Obj :=
  let m := fold_left (fun m obj => m_put obj m) s [] in
  let qns := sort_Strings (map QName s) in
  snd (visit_each (addObjAndDependFn (List.length s)) qns m []).

(** The caller's slice after [s.Sort()]: [s = s[:0]] and the appends
    write into the caller's backing array, whose length is unchanged, so
    the caller sees the emitted objects followed by the rest of its
    original elements. *)
Definition Sort (s : list Obj) : list Obj :=
  let e := sort_emitted s in
  e ++ skipn (List.length e) s.

(** The order property: every dependency of an emitted object that is a
    qname of the set [s] is the qname of an object emitted before it. *)
Definition deps_before (s out : list Obj) : Prop :=
  forall xs o ys ds d,
    out = xs ++ o :: ys -> ObjDepend o = Some ds -> In d ds ->
    In d (map QName s) -> In d (map QName xs).

(** What a visit does (up to bound [n] on the map): it only removes
    entries from the map, and emits exactly the removed objects, the
    visited one among them. *)
Definition visit_ok (v : Obj -> list Obj -> list Obj -> list Obj * list Obj) (n : nat)
  : Prop :=
  forall obj mm out, List.length mm <= n -> NoDup (map QName mm) -> In obj mm ->
  forall mm' out', v obj mm out = (mm', out') ->
  exists e, out' = out ++ e /\ Permutation mm (mm' ++ e) /\ In obj e.

(** A visit with fuel [f] keeps the order property on a set [s0], when
    every qname of [s0] removed from the map but not yet emitted (a
    visit in progress) has a rank above the visited object's. *)
Definition visit_topo_at (s0 : list Obj) (rank : string -> nat) (f : nat) : Prop :=
  forall obj mm out, List.length mm <= f -> NoDup (map QName mm) -> In obj mm -> incl mm s0 ->
  deps_before s0 out ->
  (forall q, In q (map QName s0) /\ ~ In q (map QName mm) /\ ~ In q (map QName out) ->
     rank (QName obj) < rank q) ->
  forall mm' out', addObjAndDependFn f obj mm out = (mm', out') ->
  deps_before s0 out'.

End DependSort.

(** Objects with the outcome of [Depend()] recorded, as in the
    [depend] cache field of [ObjectInfo]. *)
Record ObjectInfo : Type := {
  oi_Name : string;
  oi_Class : string;
  oi_depend : option (list string)
}.

Definition oi_QName (o : ObjectInfo) : string := (oi_Class o ++ "/" ++ oi_Name o)%string.

(** The cycle [a -> b -> a] of two [svc] objects. *)
Definition obj_a : ObjectInfo := {| oi_Name := "a"; oi_Class := "svc"; oi_depend := Some ["svc/b"] |}.
Definition obj_b : ObjectInfo := {| oi_Name := "b"; oi_Class := "svc"; oi_depend := Some ["svc/a"] |}.

(** An acyclic pair: [svc/c] depends on [svc/d] and on the object
    [svc/zz] outside the set; [svc/d]'s dependencies cannot be read. *)
Definition obj_c : ObjectInfo := {| oi_Name := "c"; oi_Class := "svc"; oi_depend := Some ["svc/d"; "svc/zz"] |}.
Definition obj_d : ObjectInfo := {| oi_Name := "d"; oi_Class := "svc"; oi_depend := None |}.

Definition rank_cd (qn : string) : nat := if String.eqb qn "svc/c" then 1 else 0.

(** ** cmd: the pull and push pipelines *)

(** [pullFiles], [pullObjects], [pushFiles] and [pushObjects] share one
    shape.  A setup phase ([GetFileStores] and [WalkFileStore] for
    [pullFiles], [GetStatus] and [GetObjectPackage] for [pullObjects],
    [GetProjectFiles] / [GetProjectObjects] for the pushes) either
    returns its error at once, before [errCount] is declared, or selects
    the items.  Each selected item is dispatched after
    [sem.Acquire(ctx, 1)], whose error is returned at once; its worker
    adds one to [errCount] when the per-item function fails.  After
    [pullWait]/[pushWait] has acquired the whole semaphore (all workers
    done), the function fails iff [errCountFinal > 0].

    An item is the outcome of its [Acquire] and of its worker. *)
Record pipe_item : Type := {
  acquire_err : option string;
  work_err : option string
}.

(** The dispatch loop, adding the failures of the workers to the count. *)
Fixpoint dispatch (items : list pipe_item) (errCount : nat) : nat * option string :=
  match items with
  | [] => (errCount, None)
  | it :: items' =>
      match acquire_err it with
      | Some e => (errCount, Some e)
      | None =>
          dispatch items' (errCount + match work_err it with Some _ => 1 | None => 0 end)
      end
  end.

(** A run: the recorded error count and the returned error. *)
Definition pipeline (setup : string + list pipe_item) : nat * option string :=
  match setup with
  | inl err => (0, Some err)
  | inr items =>
      let '(errCount, r) := dispatch items 0 in
      match r with
      | Some e => (errCount, Some e)
      | None =>
          if Nat.ltb 0 errCount then (errCount, Some "failed to pull or push items")
          else (errCount, None)
      end
  end.

Definition failures (items : list pipe_item) : nat :=
  List.length (filter (fun it => match work_err it with Some _ => true | None => false end) items).

(** [strings.Contains(s, sub)]. *)
Fixpoint contains_l (sub s : list ascii) : bool :=
  starts_with sub s || match s with [] => false | _ :: s' => contains_l sub s' end.

Definition Contains (s sub : string) : bool := contains_l (s2l sub) (s2l s).

Inductive pushResult : Type :=
| pushError
| pushOK
| pushNew
| pushSuccess.

(** [pushFile]: the outcome of [ioutil.ReadFile] and of
    [CreateOrUpdateFile] (its decoded response body) given, it yields the
    [result] passed to [logFn] and the returned error; the unchecked
    [JSONValue(res, "result").(string)] panics. *)
Definition pushFile (read : string + string) (put : string + json)
  : go (pushResult * option string) :=
  match read with
  | inl err => Ret (pushError, Some err)
  | inr _ =>
      match put with
      | inl err => Ret (pushError, Some err)
      | inr res =>
          v <- JSONValue res [PStr "result"] ;;
          match v with
          | JStr resStr =>
              if Contains resStr "File was updated" then Ret (pushOK, None)
              else if Contains resStr "File was created" then Ret (pushNew, None)
              else Ret (pushSuccess, None)
          | _ => Panic "interface conversion: interface {} is not string"
          end
      end
  end.

(** Two dispatched items, the first of which fails. *)
Definition two_items : list pipe_item :=
  [{| acquire_err := None; work_err := Some "HTTP 500" |};
   {| acquire_err := None; work_err := None |}].

(** ** The package of a pulled item and the package selection of [runPullE] *)

(** Whether a path step is a [string] or an [int] step. *)
Definition is_key_step (st : path_step) : bool :=
  match st with POther => false | _ => true end.

(** In [pullFiles]' [walkFile] and in [pullObjects]: the owner found by
    [GetFilePackage] / [GetObjectPackage], or [pkgs[0]] when there is
    none (an index out of range on an empty slice); the lookup's error
    is returned. *)
Definition owner_or_first (r : option Package + string) (pkgs : list Package)
  : go (string + Package) :=
  match r with
  | inr err => Ret (inl err)
  | inl (Some pkg) => Ret (inr pkg)
  | inl None =>
      match pkgs with
      | [] => Panic "runtime error: index out of range [0] with length 0"
      | pkg :: _ => Ret (inr pkg)
      end
  end.

(** [runPullE] / [runPushE]: [pkgs := util.FilterPackages(allPackages,
    pkgTags)], failing with "no packages selected" when it is empty. *)
Definition select_packages (allPackages : list Package) (pkgTags : list string)
  : string + list Package :=
  match FilterPackages allPackages pkgTags with
  | [] => inl "no packages selected"
  | pkgs => inr pkgs
  end.

Section FstreeInd.
Variable Pt : fstree -> Prop.
Hypothesis H_err : forall e, Pt (FSErr e).
Hypothesis H_dir : forall f d, Forall (fun nt => Pt (snd nt)) d -> Pt (FSDir f d).

Fixpoint fstree_ind' (t : fstree) : Pt t :=
  match t with
  | FSErr e => H_err e
  | FSDir f d =>
      H_dir f d ((fix dirs (d : list (json * fstree))
                    : Forall (fun nt => Pt (snd nt)) d :=
                    match d with
                    | [] => Forall_nil _
                    | nt :: d' => Forall_cons nt (fstree_ind' (snd nt)) (dirs d')
                    end) d)
  end.
End FstreeInd.

(** ** cmd: pushObject and validateObjectName *)

(** [strings.Replace(s, " ", "_", -1)]: every space becomes an
    underscore. *)
Definition replace_spaces (s : string) : string :=
  l2s (map (fun c => if Ascii.eqb c " "%char then "_"%char else c) (s2l s)).

Definition validateObjectName (name : string) (obj : json) : go (option string) :=
  n <- JSONValue obj [PStr "name"] ;;
  match n with
  | JNull => Ret (Some ("missing 'name' attribute for object: " ++ name)%string)
  | JStr s =>
      if String.eqb s "" then Ret (Some ("missing 'name' attribute for object: " ++ name)%string)
      else if String.eqb name s then Ret None
      else Ret (Some ("mismatch: object name: " ++ s ++ ", file name: " ++ name)%string)
  | _ => Panic "interface conversion: interface {} is not string"
  end.

(** [pushObject] for an object named [name]: the outcome of
    [ReadDataFromFile] and of [CreateOrUpdateObject] given, it yields
    the [result] passed to [logFn] and the returned error.
    [CreateOrUpdateObject] returns a [nil] response with its errors, so
    [JSONValue(res, "error")] is [nil] there and [err] is returned. *)
Definition pushObject (name : string) (read : string + json) (put : string + json)
  : go (pushResult * option string) :=
  match read with
  | inl err => Ret (pushError, Some err)
  | inr obj =>
      verr <- validateObjectName name obj ;;
      match verr with
      | Some err => Ret (pushError, Some err)
      | None =>
          match put with
          | inl err => Ret (pushError, Some err)
          | inr res =>
              v1 <- JSONValue res [PStr name] ;;
              v <- match v1 with
                   | JNull => JSONValue res [PStr (replace_spaces name)]
                   | _ => Ret v1
                   end ;;
              match v with
              | JNull => Ret (pushError, Some "unknown push result")
              | JStr resStr =>
                  if Contains resStr "Configuration was updated" then Ret (pushOK, None)
                  else if Contains resStr "Configuration was created" then Ret (pushNew, None)
                  else Ret (pushSuccess, None)
              | _ => Panic "interface conversion: interface {} is not string"
              end
          end
      end
  end.

(** ** cmd/pull.go: deleteLinks *)

(** The loop [for k, v := range o] of [deleteLinks]: ["_links"] and
    ["href"] are deleted, a map value is entered ([rec]), and
    [reflect.TypeOf(v).Kind()] dereferences a nil [Type] for a [nil]
    value. *)
Fixpoint dl_fields (rec : json -> go json) (fs : list (string * json))
  : go (list (string * json)) :=
  match fs with
  | [] => Ret []
  | (k, fv) :: fs' =>
      if String.eqb k "_links" then dl_fields rec fs'
      else if String.eqb k "href" then dl_fields rec fs'
      else
        nv <- match fv with
              | JNull => Panic "runtime error: invalid memory address or nil pointer dereference"
              | JObj _ => rec fv
              | _ => Ret fv
              end ;;
        rest <- dl_fields rec fs' ;;
        Ret ((k, nv) :: rest)
  end.

Fixpoint deleteLinks_val (v : json) : go json :=
  match v with
  | JObj m => m' <- dl_fields deleteLinks_val m ;; Ret (JObj m')
  | _ => Ret v
  end.

(** [deleteLinks] takes a [GenericMap]; the result is the map after the
    in-place deletion. *)
Definition deleteLinks (o : list (string * json)) : go (list (string * json)) :=
  r <- deleteLinks_val (JObj o) ;;
  match r with
  | JObj m => Ret m
  | _ => Ret o
  end.

(** No ["_links"] or ["href"] key in the map or in any map reached
    through map values. *)
Fixpoint links_free (v : json) : bool :=
  match v with
  | JObj m =>
      forallb (fun kv => negb (String.eqb (fst kv) "_links") &&
                         negb (String.eqb (fst kv) "href") && links_free (snd kv)) m
  | _ => true
  end.

(** An object depending only on an object outside any set used here. *)
Definition obj_e : ObjectInfo := {| oi_Name := "b"; oi_Class := "fw"; oi_depend := Some ["svc/zz"] |}.

(** An object listing its own qname among its dependencies. *)
Definition obj_f : ObjectInfo := {| oi_Name := "f"; oi_Class := "svc"; oi_depend := Some ["svc/f"; "svc/zz"] |}.

(** ** util/project.go: GetProjectObjects and GetProjectFiles *)

(** Both functions sort the packages and, for each one, stat its
    directory [pkg.Dir/<sub>] ([sub] is ["objects"] or ["files"]) and
    walk it.  [walk d] is the outcome of [filepath.Walk(d, walkFn)]: its
    error, or the keys (qnames, or paths relative to [d]) of the items
    [walkFn] records, in walk order.  Each key is stored in the map [m]
    unless already present.  With an error other than not-exist, [os.Stat]
    returns a [nil] [FileInfo], on which [fs.IsDir()] panics.  The
    returned slice holds the values of [m]; [m] is returned here as the
    list of its entries. *)
Section ProjectIndex.
Variable stat : string -> stat_result.
Variable walk : string -> string + list string.
Variable sub : string.

Definition pkg_sub_dir (pkg : Package) : string := (Dir pkg ++ "/" ++ sub)%string.

(** [if _, ok := m[k]; !ok { m[k] = info }]. *)
Definition index_add (pkg : Package) (m : list (string * Package)) (k : string)
  : list (string * Package) :=
  if existsb (fun e => String.eqb (fst e) k) m then m else m ++ [(k, pkg)].

Fixpoint index_pkgs (pkgs : list Package) (m : list (string * Package))
  : go (string + list (string * Package)) :=
  match pkgs with
  | [] => Ret (inr m)
  | pkg :: pkgs' =>
      match stat (pkg_sub_dir pkg) with
      | NotExist => index_pkgs pkgs' m
      | StatErr _ => Panic "runtime error: invalid memory address or nil pointer dereference"
      | IsFile => Ret (inl ("not a directory: " ++ pkg_sub_dir pkg)%string)
      | IsDirEntry =>
          match walk (pkg_sub_dir pkg) with
          | inl err => Ret (inl err)
          | inr ks => index_pkgs pkgs' (fold_left (index_add pkg) ks m)
          end
      end
  end.

(** Whether the walk of [pkg]'s directory records key [k]. *)
Definition pkg_has (pkg : Package) (k : string) : bool :=
  match stat (pkg_sub_dir pkg) with
  | IsDirEntry =>
      match walk (pkg_sub_dir pkg) with
      | inr ks => existsb (String.eqb k) ks
      | inl _ => false
      end
  | _ => false
  end.
End ProjectIndex.

Definition GetProjectObjects (stat : string -> stat_result) (walk : string -> string + list string)
    (pkgs : list Package) : go (string + list (string * Package)) :=
  index_pkgs stat walk "objects" (PackageSlice_Sort pkgs) [].

Definition GetProjectFiles (stat : string -> stat_result) (walk : string -> string + list string)
    (pkgs : list Package) : go (string + list (string * Package)) :=
  index_pkgs stat walk "files" (PackageSlice_Sort pkgs) [].

(** Both packages of the layout scenario hold [svc/x]; only [A] holds
    [svc/y]. *)
Definition layout_dirs (d : string) : stat_result :=
  if existsb (String.eqb d) ["/p/A/objects"; "/p/B/objects"] then IsDirEntry else NotExist.

Definition layout_walk (d : string) : string + list string :=
  if String.eqb d "/p/A/objects" then inr ["svc/x"; "svc/y"] else inr ["svc/x"].

(** ** util/project.go: IsHidden *)

Definition is_slash (c : ascii) : bool := Ascii.eqb c slash.

Fixpoint drop_while (f : ascii -> bool) (l : list ascii) : list ascii :=
  match l with
  | c :: l' => if f c then drop_while f l' else l
  | [] => []
  end.

Fixpoint take_while (f : ascii -> bool) (l : list ascii) : list ascii :=
  match l with
  | c :: l' => if f c then c :: take_while f l' else []
  | [] => []
  end.

(** [filepath.Base] on Unix: ["."] for the empty path; trailing slashes
    stripped; the part after the last slash; ["/"] if nothing is left. *)
Definition Base (path : string) : string :=
  if String.eqb path "" then "." else
  let p := rev (drop_while is_slash (rev (s2l path))) in
  let e := rev (take_while (fun c => negb (is_slash c)) (rev p)) in
  match e with
  | [] => "/"
  | _ => l2s e
  end.

(** [filepath.Base(path)[0:1] == "."]; the slice panics on an empty
    string. *)
Definition IsHidden (path : string) : go bool :=
  match s2l (Base path) with
  | [] => Panic "runtime error: slice bounds out of range [:1] with length 0"
  | c :: _ => Ret (Ascii.eqb c ".")
  end.

(** ** cmd: pullObject *)

Inductive pullResult : Type :=
| pullError
| pullOK
| pullNew
| pullSuccess
| pullDryRun.

(** [pullObject] for an object [cls]/[name] of [domain]: the outcomes of
    [GetObject], of [GetSingletonObject] (asked when the first fails
    with a 404) and of [SaveObject] (whether the file is new) given, it
    yields the [result] passed to [logFn], the returned error and the
    [SaveObject] call made, as the qname and the rewritten map. *)
Definition pullObject (domain cls name : string) (get single : string + json) (save : string + bool)
  : go (pullResult * option string * option (string * list (string * json))) :=
  let fetched :=
    match get with
    | inl err => if Contains err "HTTP response error: 404 Not Found" then single else get
    | inr _ => get
    end in
  match fetched with
  | inl err => Ret (pullError, Some err, None)
  | inr obj =>
      n <- JSONValue obj [PStr "name"] ;;
      match n with
      | JStr nm =>
          (* [if objInfo.Name != name { objInfo.Name = name }] *)
          match obj with
          | JObj o =>
              o' <- updateLinks o domain ;;
              let qn := (cls ++ "/" ++ nm)%string in
              match save with
              | inl err => Ret (pullError, Some err, Some (qn, o'))
              | inr new => Ret (if new then pullNew else pullOK, None, Some (qn, o'))
              end
          | _ => Panic "interface conversion: interface {} is not util.GenericMap"
          end
      | _ => Panic "interface conversion: interface {} is not string"
      end
  end.

(** * Properties *)

Example split_ex :
  split_sep slash "/mgmt/config/prod/XMLFW/svc"
  = [""; "mgmt"; "config"; "prod"; "XMLFW"; "svc"].
Proof. reflexivity. Qed.

Example depend_ex :
  Depend (JObj [("x", JObj [("href", JStr "/mgmt/config/prod/XMLFW/svc");
                            ("value", JStr "svc")])])
  = Ret ["XMLFW/svc"].
Proof. reflexivity. Qed.

Example updateLinks_ex :
  updateLinks [("href", JStr "/mgmt/config/prod/XMLFW/svc"); ("value", JStr "svc");
               ("_links", JObj [("self", JStr "x")])] "prod"
  = Ret [("href", JStr "/mgmt/config/{domain}/XMLFW/svc"); ("value", JStr "svc")].
Proof. reflexivity. Qed.

(** ** String lemmas for the href rewrite *)

Lemma s2l_app : forall a b, s2l (a ++ b) = s2l a ++ s2l b.
Proof.
  unfold s2l. induction a as [|c a IH]; intros b; simpl; [reflexivity|].
  f_equal. apply IH.
Qed.

Lemma starts_with_true : forall p s,
  starts_with p s = true <-> exists t, s = p ++ t.
Proof.
  induction p as [|a p IH]; intros [|b s]; simpl.
  - split; eauto.
  - split; eauto.
  - split; [discriminate | intros [t Ht]; discriminate].
  - rewrite andb_true_iff, IH. split.
    + intros [Hab [t ->]]. apply Ascii.eqb_eq in Hab. subst. eauto.
    + intros [t Ht]. injection Ht as -> ->. rewrite Ascii.eqb_refl. eauto.
Qed.

Lemma starts_with_app : forall p t, starts_with p (p ++ t) = true.
Proof. intros p t. apply starts_with_true. eauto. Qed.

Lemma skipn_length_app : forall (p t : list ascii), skipn (List.length p) (p ++ t) = t.
Proof. induction p as [|a p IH]; intros t; simpl; auto. Qed.

Lemma occ_count_zero_replace : forall p r s,
  occ_count p s = 0 -> replace_first p r s = s.
Proof.
  intros p r s. induction s as [|c s IH]; simpl; intros H.
  - destruct (starts_with p []); [discriminate | reflexivity].
  - destruct (starts_with p (c :: s)); [discriminate|].
    simpl in H. rewrite IH; auto.
Qed.

Lemma occ_count_app_ge : forall p x y, occ_count p y <= occ_count p (x ++ y).
Proof.
  intros p x y. induction x as [|c x IH]; simpl; [lia|].
  destruct (starts_with p (c :: x ++ y)); lia.
Qed.

Lemma replace_first_decomp : forall p r s,
  1 <= occ_count p s ->
  exists a b, s = a ++ p ++ b /\ replace_first p r s = a ++ r ++ b /\
    (forall a1 a2, a = a1 ++ a2 -> a2 <> [] -> starts_with p (a2 ++ p ++ b) = false).
Proof.
  intros p r s. induction s as [|c s IH]; intros H;
    [destruct (starts_with p []) eqn:E | destruct (starts_with p (c :: s)) eqn:E].
  - pose proof E as E'. apply starts_with_true in E' as [t Ht].
    exists [], t. simpl. rewrite E.
    split; [auto|]. split; [rewrite Ht, skipn_length_app; auto|].
    intros a1 a2 Ha Hne. destruct a1, a2; try discriminate; congruence.
  - simpl in H. rewrite E in H. simpl in H. lia.
  - pose proof E as E'. apply starts_with_true in E' as [t Ht].
    exists [], t. simpl. rewrite E.
    split; [auto|]. split; [rewrite Ht, skipn_length_app; auto|].
    intros a1 a2 Ha Hne. destruct a1, a2; try discriminate; congruence.
  - simpl in H. rewrite E in H. simpl in H.
    destruct (IH H) as [a [b [Hs [Hr Hf]]]].
    exists (c :: a), b. simpl. rewrite E, Hr, Hs. split; [reflexivity|].
    split; [reflexivity|].
    intros a1 a2 Ha Hne. destruct a1 as [|c1 a1].
    + simpl in Ha. subst a2. simpl. rewrite <- Hs. exact E.
    + injection Ha as -> Ha. eapply Hf; eauto.
Qed.

Lemma after_slash_noslash : forall D, no_slash D -> after_slash (D ++ [slash]) = [].
Proof.
  unfold no_slash. induction D as [|d D IH]; intros HD; simpl; [reflexivity|].
  destruct (Ascii.eqb d slash) eqn:E.
  - apply Ascii.eqb_eq in E. subst. exfalso. apply HD. left. reflexivity.
  - apply IH. intros Hin. apply HD. right. exact Hin.
Qed.

Lemma after_slash_app : forall u y, after_slash (u ++ slash :: y) = [] -> y = [].
Proof.
  induction u as [|c u IH]; intros y H; simpl in H.
  - exact H.
  - destruct (Ascii.eqb c slash).
    + destruct u; discriminate.
    + apply IH. exact H.
Qed.

Lemma first_slash_eq : forall D E b z, no_slash D -> no_slash E ->
  E ++ slash :: b = D ++ slash :: z -> D = E.
Proof.
  unfold no_slash. induction D as [|d D IH]; intros [|e E] b z HD HE H; simpl in H.
  - reflexivity.
  - injection H as Hd _. exfalso. apply HE. left. congruence.
  - injection H as Hd _. exfalso. apply HD. left. congruence.
  - injection H as -> H. f_equal. eapply IH; eauto.
    + intros Hin. apply HD. right. exact Hin.
    + intros Hin. apply HE. right. exact Hin.
Qed.

(** The prefix ["/mgmt/config/"] occurs in the domain pattern only at
    its start when the domain has no slash. *)
Lemma cfg_prefix_only_at_start : forall D u x, no_slash D ->
  cfg_prefix ++ D ++ [slash] = u ++ cfg_prefix ++ x -> u = [].
Proof.
  intros D u x HD H. unfold cfg_prefix in H.
  destruct u as [|c u]; [reflexivity | exfalso].
  peel H.
  do 11 (destruct u as [|? u]; [ peel H | peel H ]).
  destruct u as [|? u].
  - simpl in H. injection H as H.
    apply (f_equal after_slash) in H. rewrite after_slash_noslash in H by exact HD.
    simpl in H. discriminate.
  - simpl in H. injection H as _ H.
    apply (f_equal after_slash) in H. rewrite after_slash_noslash in H by exact HD.
    symmetry in H. apply after_slash_app in H. discriminate.
Qed.

Lemma dom_not_template : forall D b, no_slash D -> D <> s2l "{domain}" ->
  starts_with (D ++ [slash]) (s2l "{domain}" ++ slash :: b) = false.
Proof.
  intros D b HD Hne.
  destruct (starts_with _ _) eqn:E; [exfalso | reflexivity].
  apply starts_with_true in E as [z Hz]. rewrite <- app_assoc in Hz. simpl in Hz.
  apply Hne. apply (first_slash_eq D (s2l "{domain}") b z HD); [|exact Hz].
  unfold no_slash. simpl. intuition discriminate.
Qed.

Lemma occ_count_cons : forall p c t,
  occ_count p (c :: t) = (if starts_with p (c :: t) then 1 else 0) + occ_count p t.
Proof. reflexivity. Qed.

Lemma occ_count_app : forall p x y, occ_count p (x ++ y) = occ_inner p x y + occ_count p y.
Proof.
  intros p x y. induction x as [|c x IH]; simpl; [reflexivity|].
  rewrite IH. lia.
Qed.

Lemma straddle : forall D u b, no_slash D -> u <> [] ->
  starts_with (cfg_prefix ++ D ++ [slash]) (u ++ (cfg_prefix ++ D ++ [slash]) ++ b) = false ->
  starts_with (cfg_prefix ++ D ++ [slash]) (u ++ s2l href_template ++ b) = false.
Proof.
  intros D u b HD Hu H.
  destruct (starts_with _ (u ++ s2l href_template ++ b)) eqn:E; [exfalso | reflexivity].
  apply starts_with_true in E as [z Hz].
  apply app_eq_app in Hz as [m [[Hu' Hz] | [HP Hz]]].
  - subst u. rewrite <- app_assoc, starts_with_app in H. discriminate.
  - assert (HR : s2l href_template ++ b = cfg_prefix ++ (s2l "{domain}/" ++ b))
      by reflexivity.
    rewrite HR in Hz.
    apply app_eq_app in Hz as [m' [[Hc Hz'] | [Hm Hz']]].
    + assert (Hs : u ++ (cfg_prefix ++ D ++ [slash]) ++ b
                   = (cfg_prefix ++ D ++ [slash]) ++ (m' ++ D ++ [slash] ++ b)).
      { rewrite HP at 2. rewrite Hc. repeat rewrite <- app_assoc. reflexivity. }
      rewrite Hs, starts_with_app in H. discriminate.
    + subst m. apply Hu. exact (cfg_prefix_only_at_start D u m' HD HP).
Qed.

Lemma replace_first_once : forall D s, no_slash D -> D <> s2l "{domain}" ->
  occ_count (cfg_prefix ++ D ++ [slash]) s <= 1 ->
  occ_count (cfg_prefix ++ D ++ [slash])
    (replace_first (cfg_prefix ++ D ++ [slash]) (s2l href_template) s) = 0.
Proof.
  intros D s HD Hne Hc.
  set (P := cfg_prefix ++ D ++ [slash]) in *.
  destruct (occ_count P s) as [|n] eqn:E0.
  - rewrite occ_count_zero_replace; assumption.
  - destruct (replace_first_decomp P (s2l href_template) s) as [a [b [Hs [Hr Hf]]]];
      [lia|].
    rewrite Hr.
    assert (Hb : occ_count P (P ++ b) <= 1).
    { pose proof (occ_count_app_ge P a (P ++ b)). rewrite <- Hs in H. lia. }
    assert (HT : P ++ b = slash :: ((s2l "mgmt/config/" ++ D) ++ slash :: b)).
    { unfold P, cfg_prefix. simpl. rewrite <- app_assoc. reflexivity. }
    assert (Hsb : occ_count P (slash :: b) = 0).
    { rewrite HT, occ_count_cons in Hb. rewrite <- HT, starts_with_app in Hb.
      pose proof (occ_count_app_ge P (s2l "mgmt/config/" ++ D) (slash :: b)). lia. }
    assert (Hsb1 : starts_with P (slash :: b) = false).
    { rewrite occ_count_cons in Hsb. destruct (starts_with P (slash :: b)); [lia|auto]. }
    assert (Hsb2 : occ_count P b = 0).
    { rewrite occ_count_cons in Hsb. lia. }
    clear Hr Hs E0 Hc Hb HT Hsb1 Hsb2.
    induction a as [|c a IH].
    + rewrite app_nil_l.
      change (s2l href_template ++ b) with (s2l "/mgmt/config/{domain}" ++ slash :: b).
      rewrite (occ_count_app P (s2l "/mgmt/config/{domain}") (slash :: b)), Hsb, Nat.add_0_r.
      pose proof (dom_not_template D b HD Hne) as X.
      unfold P, cfg_prefix in *. simpl in X |- *. rewrite X. reflexivity.
    + rewrite <- app_comm_cons, occ_count_cons.
      assert (F : starts_with P (c :: a ++ s2l href_template ++ b) = false).
      { apply (straddle D (c :: a) b HD); [discriminate|].
        apply (Hf [] (c :: a)); [reflexivity | discriminate]. }
      rewrite F. simpl. apply IH.
      intros a1 a2 Ha Hne2. apply (Hf (c :: a1) a2); [simpl; f_equal; exact Ha | exact Hne2].
Qed.

Lemma Replace1_twice : forall domain s, no_slash (s2l domain) ->
  occ_count (s2l (href_pattern domain)) (s2l s) <= 1 ->
  Replace1 (Replace1 s (href_pattern domain) href_template) (href_pattern domain) href_template
  = Replace1 s (href_pattern domain) href_template.
Proof.
  intros domain s HD Hc. unfold Replace1.
  destruct (String.eqb (href_pattern domain) href_template) eqn:E; [reflexivity|].
  unfold l2s at 2. fold (s2l (string_of_list_ascii (replace_first
     (s2l (href_pattern domain)) (s2l href_template) (s2l s)))).
  unfold s2l at 3, l2s at 2. rewrite list_ascii_of_string_of_list_ascii. fold s2l.
  assert (HP : s2l (href_pattern domain) = cfg_prefix ++ s2l domain ++ [slash]).
  { unfold href_pattern. rewrite !s2l_app. reflexivity. }
  rewrite HP in *. rewrite occ_count_zero_replace; [reflexivity|].
  apply replace_first_once; auto.
  intros Heq. apply String.eqb_neq in E. apply E.
  assert (Hd : domain = "{domain}").
  { rewrite <- (string_of_list_ascii_of_string domain). fold (s2l domain).
    rewrite Heq. reflexivity. }
  subst domain. reflexivity.
Qed.

Lemma updateLinks_val_obj : forall domain v v',
  updateLinks_val domain v = Ret v' -> (exists m, v = JObj m) -> exists m', v' = JObj m'.
Proof.
  intros domain v v' H [m ->]. cbn [updateLinks_val] in H.
  destruct (ul_fields domain (updateLinks_val domain) m); cbn in H; [|discriminate].
  injection H as <-. eauto.
Qed.

Lemma ul_value_twice : forall domain, no_slash (s2l domain) ->
  forall v v', hrefs_once domain v = true ->
  ul_value (updateLinks_val domain) v = Ret v' ->
  ul_value (updateLinks_val domain) v' = Ret v'.
Proof.
  intros domain HD v.
  induction v as [| b | n | s | l IHl | m IHm] using json_ind';
    intros v' Hh Hu; cbn [ul_value] in Hu |- *;
    try (injection Hu as <-; reflexivity).
  - (* a slice: its map elements are rewritten *)
    destruct (ul_elems (updateLinks_val domain) l) as [l2|] eqn:E; cbn in Hu; [|discriminate].
    injection Hu as <-. cbn [ul_value]. enough (ul_elems (updateLinks_val domain) l2 = Ret l2)
      as -> by reflexivity.
    cbn [hrefs_once] in Hh.
    revert l2 E. induction l as [|x l IH]; intros l2 E; cbn in E.
    + injection E as <-. reflexivity.
    + inversion IHl as [|? ? Px Pl]; subst. cbn in Hh. apply andb_true_iff in Hh as [Hx Hl].
      destruct x as [| | | | |mx];
        try (destruct (ul_elems (updateLinks_val domain) l) as [r|] eqn:Er; cbn in E;
             [injection E as <-; cbn; rewrite (IH Pl Hl r eq_refl); reflexivity | discriminate]).
      destruct (updateLinks_val domain (JObj mx)) as [e|] eqn:Ee; cbn in E; [|discriminate].
      destruct (ul_elems (updateLinks_val domain) l) as [r|] eqn:Er; cbn in E; [|discriminate].
      injection E as <-.
      destruct (updateLinks_val_obj domain (JObj mx) e Ee (ex_intro _ mx eq_refl)) as [me ->].
      pose proof (Px (JObj me) Hx Ee) as Pe. cbn [ul_value] in Pe.
      cbn [ul_elems]. rewrite Pe. cbn. rewrite (IH Pl Hl r eq_refl). reflexivity.
  - (* a map *)
    cbn [updateLinks_val] in Hu |- *.
    destruct (ul_fields domain (updateLinks_val domain) m) as [m2|] eqn:E; cbn in Hu; [|discriminate].
    injection Hu as <-. cbn [ul_value updateLinks_val].
    enough (ul_fields domain (updateLinks_val domain) m2 = Ret m2) as -> by reflexivity.
    cbn [hrefs_once] in Hh.
    revert m2 E. induction m as [|[k x] m IH]; intros m2 E; cbn [ul_fields] in E.
    + injection E as <-. reflexivity.
    + inversion IHm as [|? ? Px Pm]; subst. cbn [snd] in Px.
      cbn [hrefs_once_fields] in Hh. apply andb_true_iff in Hh as [Hh Hm].
      apply andb_true_iff in Hh as [Hk Hx].
      destruct (String.eqb k "_links") eqn:Kl; [apply (IH Pm Hm m2 E)|].
      destruct (String.eqb k "href") eqn:Kh.
      * destruct x as [| | |s| |]; try discriminate.
        destruct (ul_fields domain (updateLinks_val domain) m) as [r|] eqn:Er;
          cbn [go_bind] in E; [|discriminate].
        injection E as <-. cbn [ul_fields]. rewrite Kl, Kh.
        rewrite (IH Pm Hm r eq_refl). cbn [go_bind].
        unfold href_once in Hk. rewrite Kh in Hk. apply Nat.leb_le in Hk.
        rewrite (Replace1_twice domain s HD Hk). reflexivity.
      * destruct (ul_value (updateLinks_val domain) x) as [nv|] eqn:Ex;
          cbn [go_bind] in E; [|discriminate].
        destruct (ul_fields domain (updateLinks_val domain) m) as [r|] eqn:Er;
          cbn [go_bind] in E; [|discriminate].
        injection E as <-. cbn [ul_fields]. rewrite Kl, Kh.
        rewrite (Px nv Hx eq_refl). cbn [go_bind]. rewrite (IH Pm Hm r eq_refl). reflexivity.
Qed.

(** ** C3: updateLinks is not idempotent in general *)

(** C3 (counterexample): an href containing the domain pattern twice is
    rewritten once per pass, so a second pass changes the document:
    ["/mgmt/config/prod//mgmt/config/prod/XMLFW/svc"] becomes
    ["/mgmt/config/{domain}//mgmt/config/prod/XMLFW/svc"] after one pass
    and ["/mgmt/config/{domain}//mgmt/config/{domain}/XMLFW/svc"] after two. *)
Lemma updateLinks_not_idempotent :
  updateLinks twice_href "prod"
    = Ret [("href", JStr "/mgmt/config/{domain}//mgmt/config/prod/XMLFW/svc")] /\
  (o1 <- updateLinks twice_href "prod" ;; updateLinks o1 "prod")
    = Ret [("href", JStr "/mgmt/config/{domain}//mgmt/config/{domain}/XMLFW/svc")] /\
  (o1 <- updateLinks twice_href "prod" ;; updateLinks o1 "prod")
    <> updateLinks twice_href "prod".
Proof.
  split; [vm_compute; reflexivity|]. split; [vm_compute; reflexivity|].
  vm_compute. intros H. injection H as H. discriminate H.
Qed.

(** C3 (amended): for a domain without ['/'] and a body in which every
    [href] string contains ["/mgmt/config/<domain>/"] at most once
    (overlapping occurrences counted), applying [updateLinks] twice
    gives the same outcome as applying it once (both fault on a
    non-string [href]). *)
Theorem updateLinks_idempotent : forall o domain,
  no_slash (s2l domain) ->
  hrefs_once domain (JObj o) = true ->
  (o1 <- updateLinks o domain ;; updateLinks o1 domain) = updateLinks o domain.
Proof.
  intros o domain HD Hh. unfold updateLinks.
  destruct (updateLinks_val domain (JObj o)) as [v'|msg] eqn:E; cbn [go_bind]; [|reflexivity].
  destruct (updateLinks_val_obj domain (JObj o) v' E (ex_intro _ o eq_refl)) as [m ->].
  pose proof (ul_value_twice domain HD (JObj o) (JObj m) Hh E) as H2.
  cbn [ul_value] in H2. cbn [go_bind]. unfold updateLinks. rewrite H2. reflexivity.
Qed.

Lemma updateLinks_idempotent_witness :
  no_slash (s2l "prod") /\
  hrefs_once "prod" (JObj [("href", JStr "/mgmt/config/prod/XMLFW/svc");
                           ("value", JStr "svc")]) = true /\
  (o1 <- updateLinks [("href", JStr "/mgmt/config/prod/XMLFW/svc");
                      ("value", JStr "svc")] "prod" ;; updateLinks o1 "prod")
  = updateLinks [("href", JStr "/mgmt/config/prod/XMLFW/svc"); ("value", JStr "svc")] "prod".
Proof.
  assert (HD : no_slash (s2l "prod")).
  { unfold no_slash. cbv. intuition discriminate. }
  assert (Hh : hrefs_once "prod" (JObj [("href", JStr "/mgmt/config/prod/XMLFW/svc");
                                        ("value", JStr "svc")]) = true).
  { vm_compute. reflexivity. }
  split; [exact HD|]. split; [exact Hh|].
  apply (updateLinks_idempotent _ "prod" HD Hh).
Defined.

(** ** C2: JSONValue and out-of-range indices *)

(** C2 (code bug): an integer step on a list indexes it without a bounds
    check, so [JSONValue([]interface{}{}, 0)] panics with an index out of
    range, whatever steps follow, instead of returning absent; on the
    sibling mapping path a missing key does silently give [nil]. *)
Theorem JSONValue_index_out_of_range : forall p,
  JSONValue (JArr []) (PInt 0 :: p) = Panic "runtime error: index out of range" /\
  JSONValue (JArr [JNum 1]) (PInt (-1) :: p) = Panic "runtime error: index out of range" /\
  JSONValue (JObj []) [PStr "missing"] = Ret JNull.
Proof. intros p. repeat split; reflexivity. Qed.

(** ** C5: Depend on a reference block with a non-string href *)

(** C5 (code bug): a two-key block [{href: 1, value: "a"}] reaches the
    unchecked assertion [href.(string)] in [RefQName], so [Depend]
    panics rather than logging a soft error; a mismatched pair of
    strings, by contrast, is descended into and yields no dependency. *)
Theorem Depend_href_not_string_panics :
  Depend (JObj [("x", JObj [("href", JNum 1); ("value", JStr "a")])])
    = Panic "interface conversion: href is not string" /\
  Depend (JObj [("x", JObj [("href", JStr "/mgmt/config/prod/XMLFW/svc");
                            ("value", JNum 2)])])
    = Panic "interface conversion: value is not string" /\
  Depend (JObj [("x", JObj [("href", JStr "/mgmt/config/prod/XMLFW/svc");
                            ("value", JStr "other")])])
    = Ret [].
Proof. repeat split; reflexivity. Qed.

(** ** C8: recognition of reference blocks *)

(** C8: [RefQName m] emits [q] exactly when [m] has two entries, [href]
    and [value] are strings, [href] splits on ['/'] into six segments,
    segment 5 equals [value], and [q] is segment 4, ['/'], [value]; an
    href of five or seven segments emits nothing; and a mapping of three
    entries is never a reference block: [Depend] descends into it. *)
Theorem RefQName_spec :
  (forall m q,
    RefQName m = Ret (RefSome q) <->
    List.length m = 2 /\
    exists h v, map_lookup "href" m = Some (JStr h) /\
                map_lookup "value" m = Some (JStr v) /\
                List.length (split_sep slash h) = 6 /\
                nth 5 (split_sep slash h) "" = v /\
                q = (nth 4 (split_sep slash h) "" ++ "/" ++ v)%string) /\
  (forall m h q, map_lookup "href" m = Some (JStr h) ->
    List.length (split_sep slash h) <> 6 -> RefQName m <> Ret (RefSome q)) /\
  (forall rec m, List.length m = 3 -> depend_map_value rec (JObj m) = rec (JObj m)).
Proof.
  assert (Hiff : forall m q,
    RefQName m = Ret (RefSome q) <->
    List.length m = 2 /\
    exists h v, map_lookup "href" m = Some (JStr h) /\
                map_lookup "value" m = Some (JStr v) /\
                List.length (split_sep slash h) = 6 /\
                nth 5 (split_sep slash h) "" = v /\
                q = (nth 4 (split_sep slash h) "" ++ "/" ++ v)%string).
  { intros m q. unfold RefQName. split.
    - destruct (Nat.eqb (List.length m) 2) eqn:E2; cbn [negb]; [|discriminate].
      apply Nat.eqb_eq in E2.
      destruct (map_lookup "href" m) as [hj|]; [|discriminate].
      destruct (map_lookup "value" m) as [vj|]; [|discriminate].
      destruct hj as [| | |h| |]; try discriminate.
      destruct vj as [| | |v| |]; try discriminate.
      destruct (Nat.eqb (List.length (split_sep slash h)) 6) eqn:E6; cbn [negb]; [|discriminate].
      destruct (String.eqb (nth 5 (split_sep slash h) "") v) eqn:E5; cbn [negb]; [|discriminate].
      intros H. injection H as <-. split; [exact E2|].
      exists h, v. apply Nat.eqb_eq in E6. apply String.eqb_eq in E5. auto.
    - intros [E2 [h [v [Hh [Hv [E6 [E5 ->]]]]]]].
      rewrite Hh, Hv, E2, E6, E5. rewrite String.eqb_refl. reflexivity. }
  split; [exact Hiff|]. split.
  - intros m h q Hh H6 H. apply Hiff in H.
    destruct H as [_ [h' [v [Hh' [_ [E6 _]]]]]].
    rewrite Hh in Hh'. injection Hh' as <-. contradiction.
  - intros rec m H3. unfold depend_map_value, RefQName. rewrite H3. reflexivity.
Qed.

(** ** C1: which package owns an object *)

Lemma sink_In : forall x rp z, In z (sink x rp) <-> z = x \/ In z rp.
Proof.
  intros x rp z. induction rp as [|y rp IH]; simpl.
  - intuition.
  - destruct (Less x y); simpl; rewrite ?IH; intuition.
Qed.

Lemma sink_sorted : forall x rp,
  StronglySorted prio_ge rp -> StronglySorted prio_ge (sink x rp).
Proof.
  intros x rp H. induction H as [|y rp Hs IH Hf]; simpl.
  - repeat constructor.
  - unfold Less. destruct (Nat.leb (Priority x) (Priority y)) eqn:E.
    + apply Nat.leb_le in E. constructor; [exact IH|].
      apply Forall_forall. intros z Hz. apply sink_In in Hz as [->|Hz].
      * exact E.
      * exact (proj1 (Forall_forall _ _) Hf z Hz).
    + apply Nat.leb_gt in E. constructor; [constructor; assumption|].
      constructor; [unfold prio_ge; lia|].
      apply Forall_forall. intros z Hz.
      pose proof (proj1 (Forall_forall _ _) Hf z Hz). unfold prio_ge in *. lia.
Qed.

Lemma fold_sink_sorted : forall l rp,
  StronglySorted prio_ge rp ->
  StronglySorted prio_ge (fold_left (fun rp x => sink x rp) l rp).
Proof.
  induction l as [|x l IH]; intros rp H; simpl; [exact H|].
  apply IH, sink_sorted, H.
Qed.

Lemma StronglySorted_snoc : forall (l : list Package) a,
  StronglySorted prio_le l -> Forall (fun x => prio_le x a) l ->
  StronglySorted prio_le (l ++ [a]).
Proof.
  induction l as [|y l IH]; intros a Hs Hf; simpl.
  - repeat constructor.
  - inversion Hs; subst. inversion Hf; subst. constructor.
    + apply IH; assumption.
    + apply Forall_app. split; [assumption|]. constructor; [assumption|constructor].
Qed.

Lemma StronglySorted_rev : forall l,
  StronglySorted prio_ge l -> StronglySorted prio_le (rev l).
Proof.
  induction l as [|a l IH]; intros H; simpl; [constructor|].
  inversion H; subst. apply StronglySorted_snoc; [apply IH; assumption|].
  apply Forall_forall. intros x Hx. apply in_rev in Hx.
  exact (proj1 (Forall_forall _ _) H3 x Hx).
Qed.

Lemma insertionSort_sorted : forall l, StronglySorted prio_le (insertionSort l).
Proof.
  intros l. unfold insertionSort. apply StronglySorted_rev, fold_sink_sorted. constructor.
Qed.

(** Every package returned by [first_owner] on a list sorted by
    increasing priority has a priority at most that of every other
    package holding a regular file at its path. *)
Lemma first_owner_lowest : forall stat path l r q,
  StronglySorted prio_le l ->
  first_owner stat path l = inl (Some r) ->
  In q l -> stat (path q) = IsFile -> Priority r <= Priority q.
Proof.
  intros stat path l r q Hs. induction Hs as [|x l Hs IH Hf]; simpl; [discriminate|].
  intros Hr Hq Hfile. destruct (stat (path x)) eqn:Ex; try discriminate.
  - destruct Hq as [->|Hq]; [congruence|]. exact (IH Hr Hq Hfile).
  - injection Hr as <-. destruct Hq as [->|Hq]; [lia|].
    exact (proj1 (Forall_forall _ _) Hf q Hq).
Qed.

(** C1 (code bug): [PackageSlice.Less] is [<=] although the type is
    documented to sort in decreasing priority order, so
    [ProjectPackages]/[FilterPackages] yield increasing priority and
    [GetObjectPackage] returns the LOWEST-priority owner.  With [A]
    (priority 10) and [B] (priority 5) both holding [objects/svc/x.json]
    (and [files/local/a.txt]), [B] is returned, not [A]; in general, for
    a project of at most 12 packages (the lengths [sort.Sort] hands to
    its insertion sort), the returned package has a priority at most
    that of every owner. *)
Theorem GetObjectPackage_lowest_priority :
  FilterPackages [pkgA; pkgB] ["prod"] = [pkgB; pkgA] /\
  GetObjectPackage layout_stat (FilterPackages [pkgA; pkgB] ["prod"]) "svc/x"
    = inl (Some pkgB) /\
  GetFilePackage layout_stat (ProjectPackages [pkgA; pkgB]) "local/a.txt"
    = inl (Some pkgB) /\
  Priority pkgB < Priority pkgA /\
  (forall stat pkgs tags qname r q,
     List.length pkgs <= 12 ->
     GetObjectPackage stat (FilterPackages pkgs tags) qname = inl (Some r) ->
     In q (FilterPackages pkgs tags) -> stat (object_file qname q) = IsFile ->
     Priority r <= Priority q).
Proof.
  split; [reflexivity|]. split; [vm_compute; reflexivity|].
  split; [vm_compute; reflexivity|]. split; [cbv; lia|].
  intros stat pkgs tags qname r q _. unfold GetObjectPackage, FilterPackages, PackageSlice_Sort.
  apply first_owner_lowest, insertionSort_sorted.
Qed.

(** ** C4: a skipped subdirectory ends the listing of its parent *)

(** C4 (code bug): when [walkDirFn] answers [ErrSkipDir] for the
    subdirectory [local/a], [fn] executes [return nil], leaving the loop
    over the remaining subdirectories: the sibling [local/b] and its file
    are never visited, and the walk reports success.  Without the skip
    both subdirectories are walked. *)
Theorem WalkFileStore_skip_drops_siblings :
  WalkFileStore skip_a accept_file two_dirs "local"
    = Ret ([EvDir "local"; EvDir "local/a"], None) /\
  (forall ev r, WalkFileStore skip_a accept_file two_dirs "local" = Ret (ev, r) ->
     ~ In (EvDir "local/b") ev) /\
  WalkFileStore (fun _ => None) accept_file two_dirs "local"
    = Ret ([EvDir "local"; EvDir "local/a"; EvFile "local/a/f1" "t1" 1;
            EvDir "local/b"; EvFile "local/b/f2" "t2" 2], None).
Proof.
  split; [vm_compute; reflexivity|]. split; [|vm_compute; reflexivity].
  intros ev r H. vm_compute in H. injection H as <- _.
  intros [H|[H|H]]; [discriminate H|discriminate H|exact H].
Qed.

(** ** C6, C7: the dependency-ordered sort *)

Section DependSortProps.
Variable Obj : Type.
Variable QName : Obj -> string.
Variable ObjDepend : Obj -> option (list string).

Local Abbreviation keys l := (map QName l).

Lemma m_get_some : forall qn m o, m_get Obj QName qn m = Some o -> In o m /\ QName o = qn.
Proof.
  intros qn m o H. apply find_some in H as [H1 H2]. split; [exact H1|].
  apply String.eqb_eq, H2.
Qed.

Lemma m_get_none : forall qn m, m_get Obj QName qn m = None -> ~ In qn (keys m).
Proof.
  intros qn m H Hin. apply in_map_iff in Hin as [o [Ho Hin]].
  pose proof (find_none _ _ H o Hin) as Hf. cbn beta in Hf.
  rewrite Ho, String.eqb_refl in Hf. discriminate.
Qed.

Lemma m_delete_absent : forall qn m, ~ In qn (keys m) -> m_delete Obj QName qn m = m.
Proof.
  intros qn m. induction m as [|x m IH]; intros H; [reflexivity|].
  unfold m_delete in *. simpl in *. destruct (String.eqb (QName x) qn) eqn:E.
  - apply String.eqb_eq in E. exfalso. apply H. left. exact E.
  - simpl. f_equal. apply IH. intros Hin. apply H. right. exact Hin.
Qed.

Lemma m_delete_perm : forall m obj, NoDup (keys m) -> In obj m ->
  Permutation m (obj :: m_delete Obj QName (QName obj) m).
Proof.
  induction m as [|x m IH]; intros obj Hnd Hin; [destruct Hin|].
  simpl in Hnd. inversion Hnd as [|? ? Hx Hnd']; subst.
  unfold m_delete. simpl. destruct Hin as [->|Hin].
  - rewrite String.eqb_refl. simpl.
    fold (m_delete Obj QName (QName obj) m). rewrite m_delete_absent by exact Hx.
    reflexivity.
  - assert (Hne : String.eqb (QName x) (QName obj) = false).
    { apply String.eqb_neq. intros E. apply Hx. rewrite E. apply in_map, Hin. }
    rewrite Hne. simpl. fold (m_delete Obj QName (QName obj) m).
    rewrite (IH obj Hnd' Hin) at 1. apply perm_swap.
Qed.

Lemma keys_perm_nodup : forall a b, Permutation a b -> NoDup (keys a) -> NoDup (keys b).
Proof.
  intros a b P H. eapply Permutation_NoDup; [|exact H]. apply Permutation_map, P.
Qed.

Lemma nodup_keys_app_l : forall a b, NoDup (keys (a ++ b)) -> NoDup (keys a).
Proof.
  intros a b H. rewrite map_app in H. apply NoDup_app_remove_r in H. exact H.
Qed.

Lemma nodup_keys_disjoint : forall a b o, NoDup (keys (a ++ b)) -> In o b ->
  ~ In (QName o) (keys a).
Proof.
  induction a as [|x a IH]; intros b o H Ho Ha; [destruct Ha|].
  simpl in H. inversion H as [|? ? Hx H']; subst.
  destruct Ha as [Ha|Ha].
  - apply Hx. rewrite map_app. apply in_or_app. right. rewrite Ha. apply in_map, Ho.
  - exact (IH b o H' Ho Ha).
Qed.

Lemma visit_each_cons : forall v q qns mm out,
  visit_each Obj QName v (q :: qns) mm out =
  let '(mm1, out1) := match m_get Obj QName q mm with
                      | Some o => v o mm out
                      | None => (mm, out)
                      end in
  visit_each Obj QName v qns mm1 out1.
Proof.
  intros v q qns mm out. unfold visit_each at 1. simpl.
  destruct (match m_get Obj QName q mm with Some o => v o mm out | None => (mm, out) end).
  reflexivity.
Qed.

Lemma perm_keys_l : forall a b c q, Permutation a (b ++ c) -> In q (keys b) -> In q (keys a).
Proof.
  intros a b c q P H. apply in_map_iff in H as [x [<- Hx]]. apply in_map.
  apply (Permutation_in _ (Permutation_sym P)). apply in_or_app. left. exact Hx.
Qed.

Lemma visit_each_ok : forall v n, visit_ok Obj QName v n ->
  forall qns mm out, List.length mm <= n -> NoDup (keys mm) ->
  forall mm' out', visit_each Obj QName v qns mm out = (mm', out') ->
  exists e, out' = out ++ e /\ Permutation mm (mm' ++ e) /\
            (forall q, In q qns -> ~ In q (keys mm')).
Proof.
  intros v n Hv. induction qns as [|q qns IH]; intros mm out Hl Hnd mm' out' E.
  - injection E as <- <-. exists []. rewrite !app_nil_r. split; [reflexivity|].
    split; [reflexivity|]. intros q [].
  - rewrite visit_each_cons in E.
    destruct (m_get Obj QName q mm) as [o|] eqn:Eg.
    + destruct (v o mm out) as [mm1 out1] eqn:Ev.
      apply m_get_some in Eg as [Ho Hq].
      destruct (Hv o mm out Hl Hnd Ho mm1 out1 Ev) as [e1 [-> [P1 He1]]].
      assert (Hnd1 : NoDup (keys (mm1 ++ e1))) by exact (keys_perm_nodup _ _ P1 Hnd).
      assert (Hl1 : List.length mm1 <= n).
      { apply Permutation_length in P1. rewrite length_app in P1. lia. }
      destruct (IH mm1 (out ++ e1) Hl1 (nodup_keys_app_l _ _ Hnd1) mm' out' E)
        as [e2 [-> [P2 Hq2]]].
      exists (e1 ++ e2). rewrite app_assoc. split; [reflexivity|]. split.
      * rewrite P1, P2. rewrite <- app_assoc. apply Permutation_app_head, Permutation_app_comm.
      * intros q' [<-|Hq']; [|exact (Hq2 q' Hq')].
        rewrite <- Hq. intros Hin.
        apply (nodup_keys_disjoint mm1 e1 o Hnd1 He1).
        exact (perm_keys_l _ _ _ _ P2 Hin).
    + destruct (IH mm out Hl Hnd mm' out' E) as [e2 [-> [P2 Hq2]]].
      exists e2. split; [reflexivity|]. split; [exact P2|].
      intros q' [<-|Hq']; [|exact (Hq2 q' Hq')].
      intros Hin. exact (m_get_none _ _ Eg (perm_keys_l _ _ _ _ P2 Hin)).
Qed.

Lemma visit_ok_fuel : forall f,
  visit_ok Obj QName (addObjAndDependFn Obj QName ObjDepend f) f.
Proof.
  induction f as [|f IH]; intros obj mm out Hl Hnd Ho mm' out' E.
  - destruct mm; [destruct Ho|simpl in Hl; lia].
  - cbn [addObjAndDependFn] in E.
    pose proof (m_delete_perm mm obj Hnd Ho) as P0.
    set (m1 := m_delete Obj QName (QName obj) mm) in *.
    assert (Hl1 : List.length m1 <= f).
    { apply Permutation_length in P0. simpl in P0. lia. }
    assert (Hnd1 : NoDup (keys m1)).
    { pose proof (keys_perm_nodup _ _ P0 Hnd) as H. simpl in H. inversion H. assumption. }
    destruct (ObjDepend obj) as [ds|].
    + destruct (visit_each Obj QName (addObjAndDependFn Obj QName ObjDepend f) ds m1 out)
        as [m2 s2] eqn:Ev.
      injection E as <- <-.
      destruct (visit_each_ok _ f IH ds m1 out Hl1 Hnd1 m2 s2 Ev) as [e [-> [P1 _]]].
      exists (e ++ [obj]). rewrite app_assoc. split; [reflexivity|]. split.
      * rewrite P0, P1. rewrite app_assoc. apply Permutation_cons_append.
      * apply in_or_app. right. left. reflexivity.
    + injection E as <- <-. exists [obj]. split; [reflexivity|]. split.
      * rewrite P0. apply Permutation_cons_append.
      * left. reflexivity.
Qed.

Lemma build_map : forall s m, NoDup (keys (s ++ m)) ->
  fold_left (fun m obj => m_put Obj QName obj m) s m = rev s ++ m.
Proof.
  induction s as [|o s IH]; intros m H; [reflexivity|].
  simpl. unfold m_put at 2. simpl in H. inversion H as [|? ? Ho H']; subst.
  rewrite m_delete_absent.
  - rewrite IH, <- app_assoc; [reflexivity|].
    rewrite map_app. simpl. eapply Permutation_NoDup; [apply Permutation_middle|].
    rewrite <- map_app. constructor; assumption.
  - intros Hin. apply Ho. rewrite map_app. apply in_or_app. right. exact Hin.
Qed.

Lemma insert_string_perm : forall x l, Permutation (insert_string x l) (x :: l).
Proof.
  intros x l. induction l as [|y l IH]; simpl; [reflexivity|].
  destruct (String.leb x y); [reflexivity|].
  rewrite IH. apply perm_swap.
Qed.

Lemma sort_Strings_perm : forall l, Permutation (sort_Strings l) l.
Proof.
  induction l as [|x l IH]; simpl; [reflexivity|].
  rewrite insert_string_perm, IH. reflexivity.
Qed.

(** The emitted sequence of a set of objects with distinct qnames is a
    permutation of it. *)
Lemma sort_emitted_perm : forall s, NoDup (keys s) ->
  Permutation (sort_emitted Obj QName ObjDepend s) s.
Proof.
  intros s Hnd. unfold sort_emitted.
  rewrite build_map by (rewrite app_nil_r; exact Hnd). rewrite app_nil_r.
  destruct (visit_each Obj QName (addObjAndDependFn Obj QName ObjDepend (List.length s))
              (sort_Strings (keys s)) (rev s) []) as [mm' out'] eqn:E.
  assert (Hl : List.length (rev s) <= List.length s) by (rewrite length_rev; lia).
  assert (Hndr : NoDup (keys (rev s))).
  { apply (keys_perm_nodup s); [apply Permutation_rev|exact Hnd]. }
  destruct (visit_each_ok _ _ (visit_ok_fuel (List.length s)) _ _ _ Hl Hndr _ _ E)
    as [e [He [P Hq]]]. simpl in He. subst out'. simpl.
  destruct mm' as [|x mm'].
  - simpl in P. rewrite <- P. symmetry. apply Permutation_rev.
  - exfalso. apply (Hq (QName x)).
    + apply (Permutation_in _ (Permutation_sym (sort_Strings_perm _))).
      apply in_map. apply (Permutation_in _ (Permutation_sym (Permutation_rev s))).
      apply (Permutation_in _ (Permutation_sym P)). left. reflexivity.
    + left. reflexivity.
Qed.

(** C7: for a set of objects (distinct qnames, as [GetProjectObjects]
    builds it by qname), [Sort] emits each object exactly once: the
    caller's slice after [Sort] is a permutation of the input, whether or
    not the dependencies form cycles and whatever [Depend()] returns,
    an error counting as no dependencies. *)
Theorem Sort_permutation : forall s, NoDup (map QName s) ->
  Permutation (Sort Obj QName ObjDepend s) s.
Proof.
  intros s Hnd. unfold Sort.
  pose proof (sort_emitted_perm s Hnd) as P.
  rewrite (Permutation_length P), skipn_all, app_nil_r. exact P.
Qed.

Lemma deps_before_nil : forall s0, deps_before Obj QName ObjDepend s0 [].
Proof. intros s0 xs o ys ds d E. destruct xs; discriminate E. Qed.

Lemma deps_before_snoc : forall s0 out obj,
  deps_before Obj QName ObjDepend s0 out ->
  (forall ds d, ObjDepend obj = Some ds -> In d ds -> In d (keys s0) -> In d (keys out)) ->
  deps_before Obj QName ObjDepend s0 (out ++ [obj]).
Proof.
  intros s0 out obj H Hobj xs o ys ds d E.
  destruct ys as [|z ys' _] using rev_ind.
  - apply app_inj_tail in E as [<- <-]. exact (Hobj ds d).
  - rewrite app_comm_cons, app_assoc in E. apply app_inj_tail in E as [E _].
    exact (H xs o ys' ds d E).
Qed.

Section Topo.
(** A set [s0] whose in-set dependencies decrease a rank: the
    dependency relation restricted to [s0] is acyclic. *)
Variable s0 : list Obj.
Variable rank : string -> nat.
Hypothesis Hrank : forall o, In o s0 -> forall ds, ObjDepend o = Some ds ->
  forall d, In d ds -> In d (keys s0) -> rank d < rank (QName o).

(** Qnames removed from the map but not yet emitted: the visits in
    progress. *)
Local Abbreviation pending mm out q :=
  (In q (keys s0) /\ ~ In q (keys mm) /\ ~ In q (keys out)).

Lemma pending_shrinks : forall mm mm1 out e q,
  Permutation mm (mm1 ++ e) -> pending mm1 (out ++ e) q -> pending mm out q.
Proof.
  intros mm mm1 out e q P [H1 [H2 H3]]. split; [exact H1|]. split.
  - intros Hin. apply in_map_iff in Hin as [x [<- Hx]].
    apply (Permutation_in _ P), in_app_or in Hx as [Hx|Hx].
    + apply H2, in_map, Hx.
    + apply H3. rewrite map_app. apply in_or_app. right. apply in_map, Hx.
  - intros Hin. apply H3. rewrite map_app. apply in_or_app. left. exact Hin.
Qed.

Lemma each_topo : forall f, visit_topo_at Obj QName ObjDepend s0 rank f ->
  forall (P : string -> Prop) ds,
  (forall d q, In d ds -> In d (keys s0) -> P q -> rank d < rank q) ->
  forall mm out, List.length mm <= f -> NoDup (keys mm) -> incl mm s0 ->
  deps_before Obj QName ObjDepend s0 out -> (forall q, pending mm out q -> P q) ->
  forall mm' out',
  visit_each Obj QName (addObjAndDependFn Obj QName ObjDepend f) ds mm out = (mm', out') ->
  deps_before Obj QName ObjDepend s0 out' /\
  (forall d, In d ds -> In d (keys s0) -> In d (keys out')).
Proof.
  intros f Hf P. induction ds as [|d ds IH]; intros HP mm out Hl Hnd Hinc Hdb Hpe mm' out' E.
  - injection E as <- <-. split; [exact Hdb|]. intros d [].
  - rewrite visit_each_cons in E.
    assert (HP' : forall d' q, In d' ds -> In d' (keys s0) -> P q -> rank d' < rank q)
      by (intros d' q Hd' Hs Hq; apply HP; [right| |]; assumption).
    destruct (m_get Obj QName d mm) as [o|] eqn:Eg.
    + destruct (addObjAndDependFn Obj QName ObjDepend f o mm out) as [mm1 out1] eqn:Ev.
      apply m_get_some in Eg as [Ho Hq].
      pose proof (Hf o mm out Hl Hnd Ho Hinc Hdb) as Hdb1.
      assert (Hdb1' : deps_before Obj QName ObjDepend s0 out1).
      { refine (Hdb1 _ mm1 out1 Ev). intros q Hpq. rewrite Hq. apply HP; [left; reflexivity| |apply Hpe, Hpq].
        rewrite <- Hq. apply in_map, Hinc, Ho. }
      destruct (visit_ok_fuel f o mm out Hl Hnd Ho mm1 out1 Ev) as [e1 [Eo [P1 He1]]].
      assert (Hnd1 : NoDup (keys (mm1 ++ e1))) by exact (keys_perm_nodup _ _ P1 Hnd).
      assert (Hl1 : List.length mm1 <= f).
      { apply Permutation_length in P1. rewrite length_app in P1. lia. }
      assert (Hinc1 : incl mm1 s0).
      { intros x Hx. apply Hinc. apply (Permutation_in _ (Permutation_sym P1)).
        apply in_or_app. left. exact Hx. }
      assert (Hpe1 : forall q, pending mm1 out1 q -> P q).
      { intros q Hpq. apply Hpe. subst out1. exact (pending_shrinks _ _ _ _ _ P1 Hpq). }
      destruct (IH HP' mm1 out1 Hl1 (nodup_keys_app_l _ _ Hnd1) Hinc1 Hdb1' Hpe1 mm' out' E)
        as [Hdb' Hds].
      split; [exact Hdb'|]. intros d' [->|Hd'] Hin; [|exact (Hds d' Hd' Hin)].
      destruct (visit_each_ok _ _ (visit_ok_fuel f) ds mm1 out1 Hl1
                  (nodup_keys_app_l _ _ Hnd1) mm' out' E) as [e2 [-> _]].
      rewrite map_app. apply in_or_app. left. subst out1. rewrite map_app.
      apply in_or_app. right. rewrite <- Hq. apply in_map, He1.
    + destruct (IH HP' mm out Hl Hnd Hinc Hdb Hpe mm' out' E) as [Hdb' Hds].
      split; [exact Hdb'|]. intros d' [->|Hd'] Hin; [|exact (Hds d' Hd' Hin)].
      destruct (visit_each_ok _ _ (visit_ok_fuel f) ds mm out Hl Hnd mm' out' E)
        as [e2 [-> _]].
      rewrite map_app. apply in_or_app. left.
      destruct (in_dec String.string_dec d' (keys out)) as [Hk|Hk]; [exact Hk|].
      exfalso. assert (Hr : P d') by (apply Hpe; split; [exact Hin|split; [exact (m_get_none _ _ Eg)|exact Hk]]).
      pose proof (HP d' d' (or_introl eq_refl) Hin Hr). lia.
Qed.

Lemma visit_topo_fuel : forall f, visit_topo_at Obj QName ObjDepend s0 rank f.
Proof.
  induction f as [|f IH]; intros obj mm out Hl Hnd Ho Hinc Hdb Hpe mm' out' E.
  - destruct mm; [destruct Ho|simpl in Hl; lia].
  - cbn [addObjAndDependFn] in E.
    pose proof (m_delete_perm mm obj Hnd Ho) as P0.
    set (m1 := m_delete Obj QName (QName obj) mm) in *.
    assert (Hl1 : List.length m1 <= f).
    { apply Permutation_length in P0. simpl in P0. lia. }
    assert (Hnd1 : NoDup (keys m1)).
    { pose proof (keys_perm_nodup _ _ P0 Hnd) as H. simpl in H. inversion H. assumption. }
    assert (Hinc1 : incl m1 s0).
    { intros x Hx. apply Hinc. apply (Permutation_in _ (Permutation_sym P0)). right. exact Hx. }
    assert (Hpe1 : forall q, pending m1 out q -> rank (QName obj) <= rank q).
    { intros q [Hq1 [Hq2 Hq3]].
      destruct (String.string_dec q (QName obj)) as [->|Hne]; [lia|].
      apply Nat.lt_le_incl, Hpe. split; [exact Hq1|]. split; [|exact Hq3].
      intros Hin. apply in_map_iff in Hin as [x [<- Hx]].
      apply (Permutation_in _ P0) in Hx as [<-|Hx]; [exact (Hne eq_refl)|].
      apply Hq2, in_map, Hx. }
    destruct (ObjDepend obj) as [ds|] eqn:Ed.
    + destruct (visit_each Obj QName (addObjAndDependFn Obj QName ObjDepend f) ds m1 out)
        as [m2 s2] eqn:Ev.
      injection E as <- <-.
      destruct (each_topo f IH (fun q => rank (QName obj) <= rank q) ds
                  ltac:(intros d q Hd Hs Hq; pose proof (Hrank obj (Hinc obj Ho) ds Ed d Hd Hs); cbn beta in Hq; lia)
                  m1 out Hl1 Hnd1 Hinc1 Hdb Hpe1 m2 s2 Ev) as [Hdb2 Hds].
      apply deps_before_snoc; [exact Hdb2|].
      intros ds' d Eds Hd Hs. rewrite Ed in Eds. injection Eds as <-. exact (Hds d Hd Hs).
    + injection E as <- <-. apply deps_before_snoc; [exact Hdb|].
      intros ds' d Eds. rewrite Ed in Eds. discriminate.
Qed.

(** The emitted sequence of an acyclic set with distinct qnames puts
    every in-set dependency before its dependent. *)
Lemma sort_emitted_topo : NoDup (keys s0) ->
  deps_before Obj QName ObjDepend s0 (sort_emitted Obj QName ObjDepend s0).
Proof.
  intros Hnd. unfold sort_emitted.
  rewrite build_map by (rewrite app_nil_r; exact Hnd). rewrite app_nil_r.
  destruct (visit_each Obj QName (addObjAndDependFn Obj QName ObjDepend (List.length s0))
              (sort_Strings (keys s0)) (rev s0) []) as [mm' out'] eqn:E.
  assert (Hl : List.length (rev s0) <= List.length s0) by (rewrite length_rev; lia).
  assert (Hndr : NoDup (keys (rev s0))).
  { apply (keys_perm_nodup s0); [apply Permutation_rev|exact Hnd]. }
  assert (Hincr : incl (rev s0) s0) by (intros x Hx; apply in_rev, Hx).
  destruct (each_topo _ (visit_topo_fuel _) (fun _ => False) _
              ltac:(intros d q _ _ []) _ _ Hl Hndr Hincr (deps_before_nil s0)
              ltac:(intros q [Hq1 [Hq2 _]]; apply Hq2;
                    apply in_map_iff in Hq1 as [x [<- Hx]]; apply in_map, in_rev;
                    rewrite rev_involutive; exact Hx)
              _ _ E) as [Hdb _].
  exact Hdb.
Qed.

End Topo.

(** C6 (amended): when the in-set dependencies are acyclic, witnessed
    by a rank on qnames that every in-set dependency of an object of the
    set lowers, and the qnames are distinct, [Sort] places every in-set
    dependency of an emitted object before it (an object whose
    [Depend()] fails has no dependencies). *)
Theorem Sort_deps_before_acyclic : forall s (rank : string -> nat),
  NoDup (map QName s) ->
  (forall o, In o s -> forall ds, ObjDepend o = Some ds ->
     forall d, In d ds -> In d (map QName s) -> rank d < rank (QName o)) ->
  deps_before Obj QName ObjDepend s (Sort Obj QName ObjDepend s).
Proof.
  intros s rank Hnd Hr. unfold Sort.
  rewrite (Permutation_length (sort_emitted_perm s Hnd)), skipn_all, app_nil_r.
  exact (sort_emitted_topo s rank Hr Hnd).
Qed.

Lemma visit_each_none : forall v qns mm out,
  (forall q, In q qns -> ~ In q (keys mm)) -> visit_each Obj QName v qns mm out = (mm, out).
Proof.
  intros v qns mm out. induction qns as [|q qns IH]; intros H; [reflexivity|].
  rewrite visit_each_cons.
  destruct (m_get Obj QName q mm) as [o|] eqn:E.
  - exfalso. apply m_get_some in E as [Ho Hq]. apply (H q); [left; reflexivity|].
    rewrite <- Hq. apply in_map, Ho.
  - apply IH. intros q' Hq'. apply H. right. exact Hq'.
Qed.

Lemma m_get_in : forall q mm, In q (keys mm) -> exists o, m_get Obj QName q mm = Some o.
Proof.
  intros q mm H. destruct (m_get Obj QName q mm) as [o|] eqn:E; [exists o; reflexivity|].
  apply m_get_none in E. contradiction.
Qed.

Lemma add_no_deps : forall s0 f obj mm out, 0 < f ->
  (forall o ds d, In o s0 -> ObjDepend o = Some ds -> In d ds -> d <> QName o ->
     ~ In d (keys s0)) -> incl mm s0 -> In obj s0 ->
  addObjAndDependFn Obj QName ObjDepend f obj mm out =
  (m_delete Obj QName (QName obj) mm, out ++ [obj]).
Proof.
  intros s0 f obj mm out Hf Hs Hi Ho. destruct f as [|f]; [lia|].
  cbn [addObjAndDependFn]. destruct (ObjDepend obj) as [ds|] eqn:E; [|reflexivity].
  rewrite visit_each_none; [reflexivity|].
  intros q Hq Hin. apply in_map_iff in Hin as [x [<- Hx]].
  unfold m_delete in Hx. apply filter_In in Hx as [Hx Hne].
  apply (Hs obj ds (QName x) Ho E Hq).
  - intros Eq. rewrite Eq, String.eqb_refl in Hne. discriminate Hne.
  - apply in_map, Hi, Hx.
Qed.

Lemma visit_all_no_deps : forall s0 f qns mm out, 0 < f ->
  (forall o ds d, In o s0 -> ObjDepend o = Some ds -> In d ds -> d <> QName o ->
     ~ In d (keys s0)) -> NoDup qns ->
  Permutation (keys mm) qns -> incl mm s0 ->
  exists l, visit_each Obj QName (addObjAndDependFn Obj QName ObjDepend f) qns mm out
            = ([], out ++ l) /\ keys l = qns.
Proof.
  intros s0 f qns. induction qns as [|q qns IH]; intros mm out Hf Hs Hnd P Hi.
  - apply Permutation_sym, Permutation_nil, map_eq_nil in P. subst mm.
    exists []. rewrite app_nil_r. split; reflexivity.
  - assert (Hq : In q (keys mm)) by (apply (Permutation_in _ (Permutation_sym P)); left; reflexivity).
    destruct (m_get_in q mm Hq) as [o Eo].
    pose proof (m_get_some _ _ _ Eo) as [Ho Hqo].
    rewrite visit_each_cons, Eo, (add_no_deps s0 f o mm out Hf Hs Hi (Hi o Ho)).
    assert (Hndm : NoDup (keys mm)) by (eapply Permutation_NoDup; [apply Permutation_sym, P|exact Hnd]).
    pose proof (Permutation_map QName (m_delete_perm mm o Hndm Ho)) as Pm. cbn [map] in Pm.
    inversion Hnd as [|q1 qs1 Hq1 Hnd']; subst q1 qs1. subst q.
    destruct (IH (m_delete Obj QName (QName o) mm) (out ++ [o]) Hf Hs Hnd') as [l [El Kl]].
    + apply (Permutation_cons_inv (a := QName o)). rewrite <- Pm. exact P.
    + intros x Hx. unfold m_delete in Hx. apply filter_In in Hx as [Hx _]. apply Hi, Hx.
    + exists (o :: l). rewrite El, <- app_assoc. split; [reflexivity|]. cbn [map]. rewrite Kl. reflexivity.
Qed.

(** A set of objects with distinct qnames none of which depends on
    another object of the set (a dependency on its own qname is allowed:
    the object is deleted from the map before its dependencies are
    looked up) comes out of [Sort] in ascending qname order, the order of
    the [sort.Strings] call on its qnames. *)
Theorem Sort_no_deps_sorted : forall s, NoDup (keys s) ->
  (forall o ds d, In o s -> ObjDepend o = Some ds -> In d ds -> d <> QName o ->
     ~ In d (keys s)) ->
  keys (Sort Obj QName ObjDepend s) = sort_Strings (keys s).
Proof.
  intros s Hnd Hs. destruct s as [|x s'] eqn:Es; [reflexivity|]. rewrite <- Es in *.
  assert (Hf : 0 < List.length s) by (subst s; simpl; lia).
  unfold Sort, sort_emitted.
  rewrite build_map by (rewrite app_nil_r; exact Hnd). rewrite app_nil_r.
  destruct (visit_all_no_deps s (List.length s) (sort_Strings (keys s)) (rev s) [] Hf Hs)
    as [l [El Kl]].
  - eapply Permutation_NoDup; [apply Permutation_sym, sort_Strings_perm|exact Hnd].
  - rewrite map_rev. rewrite <- Permutation_rev. symmetry. apply sort_Strings_perm.
  - intros y Hy. apply in_rev, Hy.
  - rewrite El. cbn [snd app].
    assert (Hl : List.length l = List.length s).
    { rewrite <- (length_map QName l), Kl, (Permutation_length (sort_Strings_perm _)), length_map.
      reflexivity. }
    rewrite Hl, skipn_all, app_nil_r. exact Kl.
Qed.

End DependSortProps.

(** C6 (counterexample): with the cycle [svc/a -> svc/b -> svc/a],
    [Sort] yields [[svc/b; svc/a]]: [svc/b]'s in-set dependency [svc/a]
    comes after it. *)
Lemma Sort_cycle_violates_order :
  Sort ObjectInfo oi_QName oi_depend [obj_a; obj_b] = [obj_b; obj_a] /\
  ~ deps_before ObjectInfo oi_QName oi_depend [obj_a; obj_b]
      (Sort ObjectInfo oi_QName oi_depend [obj_a; obj_b]).
Proof.
  assert (E : Sort ObjectInfo oi_QName oi_depend [obj_a; obj_b] = [obj_b; obj_a])
    by (vm_compute; reflexivity).
  split; [exact E|]. rewrite E. intros H.
  exact (H [] obj_b [obj_a] ["svc/a"] "svc/a" eq_refl eq_refl (or_introl eq_refl)
           (or_introl eq_refl)).
Qed.

Lemma Sort_deps_before_acyclic_witness :
  deps_before ObjectInfo oi_QName oi_depend [obj_c; obj_d]
    (Sort ObjectInfo oi_QName oi_depend [obj_c; obj_d]) /\
  Sort ObjectInfo oi_QName oi_depend [obj_c; obj_d] = [obj_d; obj_c].
Proof.
  split; [|vm_compute; reflexivity].
  apply (Sort_deps_before_acyclic ObjectInfo oi_QName oi_depend [obj_c; obj_d] rank_cd).
  - constructor; [simpl; intros [H|[]]; discriminate H|constructor; [intros []|constructor]].
  - intros o [<-|[<-|[]]] ds Eds d Hd Hs; simpl in Eds; [|discriminate Eds].
    injection Eds as <-. destruct Hd as [<-|[<-|[]]].
    + vm_compute. lia.
    + exfalso. simpl in Hs. destruct Hs as [H|[H|[]]]; discriminate H.
Defined.

Lemma Sort_permutation_witness :
  NoDup (map oi_QName [obj_a; obj_b]) /\
  Permutation (Sort ObjectInfo oi_QName oi_depend [obj_a; obj_b]) [obj_a; obj_b].
Proof.
  assert (Hnd : NoDup (map oi_QName [obj_a; obj_b])).
  { constructor; [simpl; intros [H|[]]; discriminate H|constructor; [intros []|constructor]]. }
  split; [exact Hnd|].
  apply (Sort_permutation ObjectInfo oi_QName oi_depend [obj_a; obj_b] Hnd).
Defined.

(** ** C9: the error of a pipeline and its error count *)

(** C9 (counterexample): a setup failure, e.g. [GetFileStores] failing
    in [pullFiles], is returned while the error count is zero. *)
Lemma pipeline_setup_error_count_zero :
  pipeline (inl "GetFileStores failed") = (0, Some "GetFileStores failed").
Proof. reflexivity. Qed.

Lemma dispatch_no_acquire_err : forall items c,
  Forall (fun it => acquire_err it = None) items ->
  dispatch items c = (c + failures items, None).
Proof.
  induction items as [|it items IH]; intros c H; simpl.
  - rewrite Nat.add_0_r. reflexivity.
  - inversion H as [|? ? Ha H']; subst. rewrite Ha, IH by exact H'.
    unfold failures. simpl. destruct (work_err it); simpl; f_equal; lia.
Qed.

(** C9 (amended): once the setup phase has succeeded and no
    [sem.Acquire] fails, a pipeline returns an error iff its recorded
    error count, the number of failed items, is nonzero. *)
Theorem pipeline_error_iff_count : forall items,
  Forall (fun it => acquire_err it = None) items ->
  fst (pipeline (inr items)) = failures items /\
  (snd (pipeline (inr items)) <> None <-> 0 < fst (pipeline (inr items))).
Proof.
  intros items H. unfold pipeline. rewrite dispatch_no_acquire_err by exact H.
  simpl. destruct (Nat.ltb 0 (failures items)) eqn:E; simpl.
  - apply Nat.ltb_lt in E. split; [reflexivity|]. split; [intros _; exact E|discriminate].
  - apply Nat.ltb_ge in E. split; [reflexivity|]. split; [intros C; contradiction C; reflexivity|lia].
Qed.

Lemma pipeline_error_iff_count_witness :
  Forall (fun it => acquire_err it = None) two_items /\
  (fst (pipeline (inr two_items)) = failures two_items /\
   (snd (pipeline (inr two_items)) <> None <-> 0 < fst (pipeline (inr two_items)))) /\
  pipeline (inr two_items) = (1, Some "failed to pull or push items").
Proof.
  assert (H : Forall (fun it => acquire_err it = None) two_items) by (repeat constructor).
  split; [exact H|]. split; [exact (pipeline_error_iff_count two_items H)|].
  reflexivity.
Defined.

(** ** C10: the classification of a file push *)

(** C10: when the file is read and the PUT succeeds, [pushFile] panics
    exactly when the response body has no string at key [result];
    otherwise it returns no error and classifies the item as ok, new or
    success. *)
Theorem pushFile_result_not_string_panics : forall data res,
  ((exists msg, pushFile (inr data) (inr res) = Panic msg) <->
   (forall s, JSONValue res [PStr "result"] <> Ret (JStr s))) /\
  (forall s, JSONValue res [PStr "result"] = Ret (JStr s) ->
   exists r, pushFile (inr data) (inr res) = Ret (r, None) /\ r <> pushError).
Proof.
  intros data res. split; [|intros s Hs; unfold pushFile; rewrite Hs; cbn [go_bind];
    destruct (Contains s "File was updated"); [eexists; split; [reflexivity|discriminate]|];
    destruct (Contains s "File was created"); eexists; split; (reflexivity || discriminate)].
  unfold pushFile.
  assert (Hnp : exists v, JSONValue res [PStr "result"] = Ret v).
  { destruct res; simpl; eexists; reflexivity. }
  destruct Hnp as [v Hv]. rewrite Hv. cbn [go_bind]. split.
  - intros [msg Hm] s Hs. injection Hs as ->.
    destruct (Contains s "File was updated"); [discriminate Hm|].
    destruct (Contains s "File was created"); discriminate Hm.
  - intros Hns. destruct v; try (eexists; reflexivity).
    exfalso. exact (Hns s eq_refl).
Qed.

(** * Further properties of the code *)

(** ** JSONValue *)

Lemma JSONValue_null_keys : forall q,
  forallb is_key_step q = true -> JSONValue JNull q = Ret JNull.
Proof. intros [|[]] H; simpl in *; try reflexivity; discriminate. Qed.

(** Walking a path in two pieces is walking it at once, as long as the
    second piece has only string and int steps (a walk stopped early by
    a mismatch never reaches a later step of another type). *)
Theorem JSONValue_app : forall c p q,
  forallb is_key_step q = true ->
  JSONValue c (p ++ q) = (v <- JSONValue c p ;; JSONValue v q).
Proof.
  intros c p. revert c. induction p as [|st p IH]; intros c q Hq; [reflexivity|].
  destruct st as [k|i|]; simpl.
  - destruct c; try (symmetry; apply JSONValue_null_keys, Hq). apply IH, Hq.
  - destruct c; try (symmetry; apply JSONValue_null_keys, Hq).
    destruct ((0 <=? i)%Z && (i <? Z.of_nat (List.length l))%Z); [apply IH, Hq|reflexivity].
  - reflexivity.
Qed.

Lemma JSONValue_app_witness :
  forallb is_key_step [PStr "b"] = true /\
  JSONValue (JObj [("a", JObj [("b", JNum 7)])]) ([PStr "a"] ++ [PStr "b"])
  = (v <- JSONValue (JObj [("a", JObj [("b", JNum 7)])]) [PStr "a"] ;; JSONValue v [PStr "b"]).
Proof.
  split; [reflexivity|]. apply JSONValue_app. reflexivity.
Defined.

(** A path of string steps only never panics, whatever the value. *)
Theorem JSONValue_string_path_total : forall p c,
  Forall (fun st => exists k, st = PStr k) p -> exists v, JSONValue c p = Ret v.
Proof.
  induction p as [|st p IH]; intros c H; [eexists; reflexivity|].
  inversion H as [|? ? [k ->] H']; subst. simpl.
  destruct c; try (eexists; reflexivity). apply IH, H'.
Qed.

Lemma JSONValue_string_path_total_witness :
  Forall (fun st => exists k, st = PStr k) [PStr "x"; PStr "y"] /\
  exists v, JSONValue (JArr [JNull]) [PStr "x"; PStr "y"] = Ret v.
Proof.
  assert (H : Forall (fun st => exists k, st = PStr k) [PStr "x"; PStr "y"]).
  { repeat constructor; eexists; reflexivity. }
  split; [exact H|]. apply JSONValue_string_path_total, H.
Defined.

(** ** Packages *)

Lemma sink_perm : forall x rp, Permutation (sink x rp) (x :: rp).
Proof.
  intros x rp. induction rp as [|y rp IH]; simpl; [reflexivity|].
  destruct (Less x y); [|reflexivity]. rewrite IH. apply perm_swap.
Qed.

Lemma fold_sink_perm : forall l rp,
  Permutation (fold_left (fun rp x => sink x rp) l rp) (l ++ rp).
Proof.
  induction l as [|x l IH]; intros rp; simpl; [reflexivity|].
  rewrite IH, sink_perm. symmetry. apply Permutation_middle.
Qed.

Lemma insertionSort_perm : forall l, Permutation (insertionSort l) l.
Proof.
  intros l. unfold insertionSort. rewrite <- Permutation_rev, fold_sink_perm, app_nil_r.
  reflexivity.
Qed.

(** [PackageSlice.Sort] rearranges at most 12 packages into increasing
    priority. *)
Theorem PackageSlice_Sort_increasing : forall l,
  List.length l <= 12 ->
  Permutation (PackageSlice_Sort l) l /\ StronglySorted prio_le (PackageSlice_Sort l).
Proof.
  intros l _. split; [apply insertionSort_perm|apply insertionSort_sorted].
Qed.

Lemma PackageSlice_Sort_increasing_witness :
  List.length [pkgA; pkgB] <= 12 /\
  Permutation (PackageSlice_Sort [pkgA; pkgB]) [pkgA; pkgB] /\
  StronglySorted prio_le (PackageSlice_Sort [pkgA; pkgB]).
Proof.
  assert (H : List.length [pkgA; pkgB] <= 12) by (simpl; lia).
  split; [exact H|]. exact (PackageSlice_Sort_increasing _ H).
Defined.

Lemma fold_sink_ties : forall k l rp,
  Forall (fun p => Priority p = k) l -> Forall (fun p => Priority p = k) rp ->
  fold_left (fun rp x => sink x rp) l rp = rp ++ l.
Proof.
  intros k. induction l as [|x l IH]; intros rp Hl Hrp; simpl; [rewrite app_nil_r; reflexivity|].
  apply Forall_cons_iff in Hl as [Hx Hl'].
  assert (Hs : sink x rp = rp ++ [x]).
  { clear IH Hl'. induction rp as [|y rp IHr]; [reflexivity|].
    apply Forall_cons_iff in Hrp as [Hy Hrp']. simpl. unfold Less.
    rewrite Hx, Hy, Nat.leb_refl. rewrite IHr by exact Hrp'. reflexivity. }
  rewrite Hs, IH; [rewrite <- app_assoc; reflexivity|exact Hl'|].
  apply Forall_app. split; [exact Hrp|constructor; [exact Hx|constructor]].
Qed.

(** Because [Less] is [<=], packages of equal priority are swapped: a
    list of at most 12 packages of one priority comes out of
    [PackageSlice.Sort] reversed (the glob order of [ProjectPackages]
    turned around). *)
Theorem PackageSlice_Sort_ties_reversed : forall k l,
  List.length l <= 12 ->
  Forall (fun p => Priority p = k) l -> PackageSlice_Sort l = rev l.
Proof.
  intros k l _ H. unfold PackageSlice_Sort, insertionSort.
  rewrite (fold_sink_ties k l [] H (Forall_nil _)). reflexivity.
Qed.

Lemma PackageSlice_Sort_ties_reversed_witness :
  List.length
    [{| Name := "A"; Dir := "/p/A"; Tags := []; Priority := 3 |};
     {| Name := "B"; Dir := "/p/B"; Tags := []; Priority := 3 |}] <= 12 /\
  Forall (fun p => Priority p = 3)
    [{| Name := "A"; Dir := "/p/A"; Tags := []; Priority := 3 |};
     {| Name := "B"; Dir := "/p/B"; Tags := []; Priority := 3 |}] /\
  PackageSlice_Sort
    [{| Name := "A"; Dir := "/p/A"; Tags := []; Priority := 3 |};
     {| Name := "B"; Dir := "/p/B"; Tags := []; Priority := 3 |}]
  = [{| Name := "B"; Dir := "/p/B"; Tags := []; Priority := 3 |};
     {| Name := "A"; Dir := "/p/A"; Tags := []; Priority := 3 |}].
Proof.
  assert (H : Forall (fun p => Priority p = 3)
    [{| Name := "A"; Dir := "/p/A"; Tags := []; Priority := 3 |};
     {| Name := "B"; Dir := "/p/B"; Tags := []; Priority := 3 |}]) by (repeat constructor).
  assert (Hl : List.length
    [{| Name := "A"; Dir := "/p/A"; Tags := []; Priority := 3 |};
     {| Name := "B"; Dir := "/p/B"; Tags := []; Priority := 3 |}] <= 12) by (simpl; lia).
  split; [exact Hl|]. split; [exact H|]. exact (PackageSlice_Sort_ties_reversed 3 _ Hl H).
Defined.

Lemma HasTag_In : forall p t, HasTag p t = true <-> In t (Tags p).
Proof.
  intros p t. unfold HasTag. rewrite existsb_exists. split.
  - intros [x [Hx E]]. apply String.eqb_eq in E. subst. exact Hx.
  - intros H. exists t. split; [exact H|apply String.eqb_refl].
Qed.

Lemma In_FilterPackages : forall pkgs tags p,
  In p (FilterPackages pkgs tags) <-> In p pkgs /\ (forall t, In t tags -> In t (Tags p)).
Proof.
  intros pkgs tags p. unfold FilterPackages, PackageSlice_Sort.
  split.
  - intros H. apply (Permutation_in _ (insertionSort_perm _)) in H.
    apply filter_In in H as [H1 H2]. split; [exact H1|].
    intros t Ht. apply HasTag_In. rewrite forallb_forall in H2. exact (H2 t Ht).
  - intros [H1 H2]. apply (Permutation_in _ (Permutation_sym (insertionSort_perm _))).
    apply filter_In. split; [exact H1|]. apply forallb_forall. intros t Ht.
    apply HasTag_In, H2, Ht.
Qed.

(** [FilterPackages] keeps exactly the packages carrying every required
    tag (a conjunction; no tag required keeps all), sorted by increasing
    priority. *)
Theorem FilterPackages_spec : forall pkgs tags,
  (forall p, In p (FilterPackages pkgs tags) <->
             In p pkgs /\ (forall t, In t tags -> In t (Tags p))) /\
  StronglySorted prio_le (FilterPackages pkgs tags) /\
  FilterPackages pkgs [] = PackageSlice_Sort pkgs.
Proof.
  intros pkgs tags. split; [apply In_FilterPackages|]. split; [apply insertionSort_sorted|].
  unfold FilterPackages. f_equal. clear tags.
  induction pkgs as [|x l IH]; simpl in *; congruence.
Qed.

(** [runPullE] and [runPushE] stop with "no packages selected" exactly
    when no project package carries all the required tags. *)
Theorem select_packages_none : forall allPackages pkgTags,
  select_packages allPackages pkgTags = inl "no packages selected" <->
  (forall p, In p allPackages -> exists t, In t pkgTags /\ ~ In t (Tags p)).
Proof.
  intros all tags. unfold select_packages. split.
  - destruct (FilterPackages all tags) as [|x l] eqn:E; [|discriminate].
    intros _ p Hp. destruct (forallb (fun t => existsb (String.eqb t) (Tags p)) tags) eqn:Et.
    + exfalso. assert (Hin : In p (FilterPackages all tags)).
      { apply In_FilterPackages. split; [exact Hp|]. intros t Ht.
        rewrite forallb_forall in Et. apply HasTag_In, Et, Ht. }
      rewrite E in Hin. destruct Hin.
    + apply Bool.not_true_iff_false in Et. rewrite forallb_forall in Et.
      destruct (forallb (fun t => existsb (String.eqb t) (Tags p)) tags) eqn:Et2.
      * exfalso. apply Et. apply forallb_forall. exact Et2.
      * apply Bool.not_true_iff_false in Et2.
        destruct (List.existsb (fun t => negb (existsb (String.eqb t) (Tags p))) tags) eqn:Ex.
        -- apply existsb_exists in Ex as [t [Ht Hn]]. exists t. split; [exact Ht|].
           intros Hin. apply (proj2 (HasTag_In p t)) in Hin. unfold HasTag in Hin.
           rewrite Hin in Hn. discriminate.
        -- exfalso. apply Et2. apply forallb_forall. intros t Ht.
           destruct (existsb (String.eqb t) (Tags p)) eqn:Eb; [reflexivity|].
           assert (existsb (fun t => negb (existsb (String.eqb t) (Tags p))) tags = true)
             as C by (apply existsb_exists; exists t; rewrite Eb; auto).
           rewrite C in Ex. discriminate.
  - intros H. destruct (FilterPackages all tags) as [|x l] eqn:E; [reflexivity|].
    exfalso. assert (Hx : In x (FilterPackages all tags)) by (rewrite E; left; reflexivity).
    apply In_FilterPackages in Hx as [Hx Ht]. destruct (H x Hx) as [t [Ht' Hn]].
    exact (Hn (Ht t Ht')).
Qed.


(** ** Which package owns an item *)

(** [GetObjectPackage] (and [GetFilePackage], both [first_owner])
    answers [(nil, nil)] exactly when no package has the path; a package
    it returns is one of the list holding a regular file at the path;
    and an error comes from a package whose path could not be stat-ed
    or is a directory. *)
Theorem first_owner_spec : forall stat path pkgs,
  (first_owner stat path pkgs = inl None <->
   Forall (fun p => stat (path p) = NotExist) pkgs) /\
  (forall p, first_owner stat path pkgs = inl (Some p) ->
   In p pkgs /\ stat (path p) = IsFile) /\
  (forall e, first_owner stat path pkgs = inr e ->
   exists p, In p pkgs /\ (stat (path p) = IsDirEntry \/ exists e', stat (path p) = StatErr e')).
Proof.
  intros stat path pkgs. induction pkgs as [|x l [IH1 [IH2 IH3]]]; simpl.
  - split; [split; [constructor|reflexivity]|]. split; discriminate.
  - destruct (stat (path x)) eqn:E.
    + split; [rewrite IH1; split; [intros H; constructor; assumption|intros H; inversion H; assumption]|].
      split.
      * intros p Hp. destruct (IH2 p Hp). split; [right|]; assumption.
      * intros e He. destruct (IH3 e He) as [p [Hp Hs]]. exists p. split; [right|]; assumption.
    + split; [split; [discriminate|intros H; inversion H; congruence]|].
      split; [discriminate|]. intros e' _. exists x. split; [left; reflexivity|right; eexists; exact E].
    + split; [split; [discriminate|intros H; inversion H; congruence]|].
      split; [discriminate|]. intros e' _. exists x. split; [left; reflexivity|left; exact E].
    + split; [split; [discriminate|intros H; inversion H; congruence]|].
      split; [|discriminate]. intros p Hp. injection Hp as <-. split; [left; reflexivity|exact E].
Qed.

(** A selected file or object that no package holds is assigned to
    [pkgs[0]], which for the sorted list of a project of at most 12
    packages is a package of lowest priority; with no package at all this
    would index out of range. *)
Theorem owner_or_first_fallback : forall stat allPackages tags path,
  List.length allPackages <= 12 ->
  GetFilePackage stat (FilterPackages allPackages tags) path = inl None ->
  FilterPackages allPackages tags <> [] ->
  exists p, owner_or_first (GetFilePackage stat (FilterPackages allPackages tags) path)
                           (FilterPackages allPackages tags) = Ret (inr p) /\
            (forall q, In q (FilterPackages allPackages tags) -> Priority p <= Priority q).
Proof.
  intros stat all tags path _ Hn Hne. rewrite Hn. unfold owner_or_first.
  assert (Hs : StronglySorted prio_le (FilterPackages all tags))
    by (unfold FilterPackages, PackageSlice_Sort; apply insertionSort_sorted).
  destruct (FilterPackages all tags) as [|p l]; [contradiction Hne; reflexivity|].
  exists p. split; [reflexivity|]. intros q [<-|Hq]; [lia|].
  inversion Hs as [|? ? _ Hf]. exact (proj1 (Forall_forall _ _) Hf q Hq).
Qed.

Lemma owner_or_first_fallback_witness :
  List.length [pkgA; pkgB] <= 12 /\
  GetFilePackage (fun _ => NotExist) (FilterPackages [pkgA; pkgB] ["prod"]) "local/x" = inl None /\
  FilterPackages [pkgA; pkgB] ["prod"] <> [] /\
  exists p, owner_or_first (GetFilePackage (fun _ => NotExist) (FilterPackages [pkgA; pkgB] ["prod"]) "local/x")
                           (FilterPackages [pkgA; pkgB] ["prod"]) = Ret (inr p) /\
            (forall q, In q (FilterPackages [pkgA; pkgB] ["prod"]) -> Priority p <= Priority q).
Proof.
  assert (H1 : GetFilePackage (fun _ => NotExist) (FilterPackages [pkgA; pkgB] ["prod"]) "local/x"
               = inl None) by reflexivity.
  assert (H2 : FilterPackages [pkgA; pkgB] ["prod"] <> []) by discriminate.
  assert (H0 : List.length [pkgA; pkgB] <= 12) by (simpl; lia).
  split; [exact H0|]. split; [exact H1|]. split; [exact H2|].
  exact (owner_or_first_fallback _ _ _ _ H0 H1 H2).
Defined.

(** ** Walking the file store *)

Lemma JSONValue_key_ret : forall c k, exists v, JSONValue c [PStr k] = Ret v.
Proof. intros c k. destruct c; eexists; reflexivity. Qed.

Lemma walk_files_no_skip : forall walkFileFn p f ev r,
  (forall q m s, walkFileFn q m s <> Some ErrSkipDir) ->
  walk_files walkFileFn p f = Ret (ev, r) -> r <> Some ErrSkipDir.
Proof.
  intros wf p f. induction f as [|a f' IH]; intros ev r Hf H; cbn [walk_files] in H.
  - injection H as _ <-. discriminate.
  - destruct (JSONValue a [PStr "name"]) as [vn|]; cbn [go_bind] in H; [|discriminate H].
    destruct (as_string vn) as [n|]; cbn [go_bind] in H; [|discriminate H].
    destruct (JSONValue a [PStr "modified"]) as [vm|]; cbn [go_bind] in H; [|discriminate H].
    destruct (as_string vm) as [m|]; cbn [go_bind] in H; [|discriminate H].
    destruct (JSONValue a [PStr "size"]) as [vs|]; cbn [go_bind] in H; [|discriminate H].
    destruct (as_float64 vs) as [s|]; cbn [go_bind] in H; [|discriminate H].
    destruct (wf _ m _) as [e|] eqn:Ew.
    + injection H as _ <-. rewrite <- Ew. apply Hf.
    + destruct (walk_files wf p f') as [[ev' r']|msg] eqn:E; cbn [go_bind] in H; [|discriminate H].
      injection H as _ <-. exact (IH ev' r' Hf eq_refl).
Qed.

Lemma walk_fn_no_skip : forall walkDirFn walkFileFn t p ev r,
  (forall q m s, walkFileFn q m s <> Some ErrSkipDir) ->
  walk_fn walkDirFn walkFileFn t p = Ret (ev, r) -> r <> Some ErrSkipDir.
Proof.
  intros wd wf t. induction t as [e|f d Hd] using fstree_ind'; intros p ev r Hf H;
    cbn [walk_fn] in H.
  - injection H as _ <-. discriminate.
  - destruct (walk_files wf p f) as [[ev1 r1]|msg] eqn:E1; cbn [go_bind] in H; [|discriminate H].
    destruct r1 as [e|].
    { injection H as _ <-. exact (walk_files_no_skip wf p f ev1 (Some e) Hf E1). }
    revert ev r H. induction Hd as [|[a t'] d' Ht' Hd' IHd]; intros ev r H.
    + cbn [go_bind] in H. injection H as _ <-. discriminate.
    + cbn [go_bind] in H.
      destruct (JSONValue a [PStr "name"]) as [vn|]; cbn [go_bind] in H; [|discriminate H].
      destruct (as_string vn) as [n|]; cbn [go_bind] in H; [|discriminate H].
      destruct (wd _) as [[|e]|]; cbn [go_bind] in H.
      * injection H as _ <-. discriminate.
      * injection H as _ <-. discriminate.
      * cbn [snd] in Ht'.
        destruct (walk_fn wd wf t' _) as [[ev2 r2]|msg] eqn:E2; cbn [go_bind] in H;
          [|discriminate H].
        destruct r2 as [e|].
        -- injection H as _ <-. exact (Ht' _ ev2 (Some e) Hf E2).
        -- match type of H with context [go_bind (go_bind ?X _) _] =>
             destruct X as [[ev3 r3]|msg] eqn:E3 end; cbn [go_bind] in H; [|discriminate H].
           injection H as _ <-. exact (IHd (ev1 ++ ev3) r3 eq_refl).
Qed.

(** A walk whose file callback never answers [ErrSkipDir] never returns
    [ErrSkipDir]: a directory callback's skip is always turned into
    success, at the root and below. *)
Theorem WalkFileStore_skip_not_returned : forall walkDirFn walkFileFn root path ev r,
  (forall q m s, walkFileFn q m s <> Some ErrSkipDir) ->
  WalkFileStore walkDirFn walkFileFn root path = Ret (ev, r) -> r <> Some ErrSkipDir.
Proof.
  intros wd wf root path ev r Hf H. unfold WalkFileStore in H.
  destruct (wd path) as [[|e]|]; cbn [go_bind] in H.
  - injection H as _ <-. discriminate.
  - injection H as _ <-. discriminate.
  - destruct (walk_fn wd wf root path) as [[ev' r']|msg] eqn:E; cbn [go_bind] in H;
      [|discriminate H].
    injection H as _ <-. exact (walk_fn_no_skip wd wf root path ev' r' Hf E).
Qed.

Lemma WalkFileStore_skip_not_returned_witness :
  (forall q m s, accept_file q m s <> Some ErrSkipDir) /\
  WalkFileStore skip_a accept_file two_dirs "local"
    = Ret ([EvDir "local"; EvDir "local/a"], None) /\
  None <> Some ErrSkipDir.
Proof.
  assert (H : forall q m s, accept_file q m s <> Some ErrSkipDir)
    by (intros q m s; unfold accept_file; discriminate).
  assert (E : WalkFileStore skip_a accept_file two_dirs "local"
                = Ret ([EvDir "local"; EvDir "local/a"], None)) by (vm_compute; reflexivity).
  split; [exact H|]. split; [exact E|].
  exact (WalkFileStore_skip_not_returned _ _ _ _ _ _ H E).
Defined.

(** A listing entry whose ["name"] is not a string makes the walk panic:
    a file entry at the head of the root listing (its [.(string)]
    assertion runs before any callback on it), and likewise a directory
    entry at the head of a root listing without files. *)
Theorem WalkFileStore_malformed_entry_panics : forall walkDirFn walkFileFn path,
  walkDirFn path = None ->
  (forall a f d, (forall s, JSONValue a [PStr "name"] <> Ret (JStr s)) ->
     exists msg, WalkFileStore walkDirFn walkFileFn (FSDir (a :: f) d) path = Panic msg) /\
  (forall a t d, (forall s, JSONValue a [PStr "name"] <> Ret (JStr s)) ->
     exists msg, WalkFileStore walkDirFn walkFileFn (FSDir [] ((a, t) :: d)) path = Panic msg).
Proof.
  intros wd wf path Hw. unfold WalkFileStore. rewrite Hw. split.
  - intros a f d Hn. cbn [walk_fn walk_files go_bind].
    destruct (JSONValue_key_ret a "name") as [v Hv]. rewrite Hv. cbn [go_bind].
    destruct v; try (eexists; reflexivity). exfalso. exact (Hn s Hv).
  - intros a t d Hn. cbn [walk_fn walk_files go_bind].
    destruct (JSONValue_key_ret a "name") as [v Hv]. rewrite Hv. cbn [go_bind].
    destruct v; try (eexists; reflexivity). exfalso. exact (Hn s Hv).
Qed.

Lemma WalkFileStore_malformed_entry_panics_witness :
  (fun _ : string => @None walk_err) "local" = None /\
  WalkFileStore (fun _ => None) accept_file
    (FSDir [JObj [("name", JNum 7)]] []) "local"
    = Panic "interface conversion: interface {} is not string".
Proof.
  assert (Hw : (fun _ : string => @None walk_err) "local" = None) by reflexivity.
  split; [exact Hw|].
  destruct (proj1 (WalkFileStore_malformed_entry_panics _ accept_file "local" Hw)
              (JObj [("name", JNum 7)]) [] [] ltac:(discriminate)) as [msg E].
  rewrite E. vm_compute in E. symmetry; exact E.
Defined.

(** ** Pushing objects *)


(** [validateObjectName] accepts exactly an object whose ["name"] is the
    expected name, which must be non-empty; it panics exactly when the
    ["name"] attribute is present but not a string (or null). *)
Theorem validateObjectName_spec : forall name obj,
  (validateObjectName name obj = Ret None <->
   JSONValue obj [PStr "name"] = Ret (JStr name) /\ name <> ""%string) /\
  ((exists msg, validateObjectName name obj = Panic msg) <->
   exists v, JSONValue obj [PStr "name"] = Ret v /\ v <> JNull /\ forall s, v <> JStr s).
Proof.
  intros name obj. destruct (JSONValue_key_ret obj "name") as [v Hv].
  unfold validateObjectName. rewrite Hv. simpl.
  destruct v as [| | |s| |].
  - split; [split; [discriminate|intros [H _]; discriminate H]|].
    split; [intros [? H]; discriminate H|].
    intros [v [Hv' [Hn _]]]. injection Hv' as <-. contradiction Hn. reflexivity.
  - split; [split; [discriminate|intros [H _]; discriminate H]|].
    split; [intros _; eexists; split; [reflexivity|split; discriminate]|].
    intros _; eexists; reflexivity.
  - split; [split; [discriminate|intros [H _]; discriminate H]|].
    split; [intros _; eexists; split; [reflexivity|split; discriminate]|].
    intros _; eexists; reflexivity.
  - split.
    + destruct (String.eqb_spec s "") as [->|Hne].
      * split; [discriminate|intros [H1 H2]; injection H1 as <-; contradiction H2; reflexivity].
      * destruct (String.eqb_spec name s) as [->|Hns].
        -- split; [intros _; split; [reflexivity|exact Hne]|reflexivity].
        -- split; [discriminate|intros [H1 _]; injection H1 as ->; contradiction Hns; reflexivity].
    + split.
      * intros [msg H]. destruct (String.eqb s ""); [discriminate H|].
        destruct (String.eqb name s); discriminate H.
      * intros [v [Hv' [_ Hs]]]. injection Hv' as <-. contradiction (Hs s). reflexivity.
  - split; [split; [discriminate|intros [H _]; discriminate H]|].
    split; [intros _; eexists; split; [reflexivity|split; discriminate]|].
    intros _; eexists; reflexivity.
  - split; [split; [discriminate|intros [H _]; discriminate H]|].
    split; [intros _; eexists; split; [reflexivity|split; discriminate]|].
    intros _; eexists; reflexivity.
Qed.

(** When [pushObject] returns normally, the outcome it logs is
    [pushError] exactly when it returns an error. *)
Theorem pushObject_logged_error : forall name read put r e,
  pushObject name read put = Ret (r, e) -> (r = pushError <-> e <> None).
Proof.
  intros name read put r e H. unfold pushObject in H.
  destruct read as [err|obj]; [injection H as <- <-; split; [discriminate|reflexivity]|].
  destruct (validateObjectName name obj) as [[err|]|msg]; cbn [go_bind] in H; [| |discriminate H].
  - injection H as <- <-. split; [discriminate|reflexivity].
  - destruct put as [err|res]; [injection H as <- <-; split; [discriminate|reflexivity]|].
    destruct (JSONValue_key_ret res name) as [v1 H1]. rewrite H1 in H. cbn [go_bind] in H.
    destruct (JSONValue_key_ret res (replace_spaces name)) as [v2 H2].
    destruct v1; cbn [go_bind] in H; try rewrite H2 in H; cbn [go_bind] in H;
      repeat match type of H with
             | context [match ?v with JNull => _ | _ => _ end] => destruct v
             | context [if ?b then _ else _] => destruct b
             end;
      try discriminate H; injection H as <- <-; split;
      solve [discriminate | reflexivity | intros _; discriminate | intros H; contradiction H; reflexivity].
Qed.

Lemma pushObject_logged_error_witness :
  pushObject "a b" (inr (JObj [("name", JStr "a b")]))
             (inr (JObj [("a_b", JStr "Configuration was created")])) = Ret (pushNew, None) /\
  (pushNew = pushError <-> None <> @None string).
Proof.
  assert (H : pushObject "a b" (inr (JObj [("name", JStr "a b")]))
                (inr (JObj [("a_b", JStr "Configuration was created")])) = Ret (pushNew, None))
    by reflexivity.
  split; [exact H|]. exact (pushObject_logged_error _ _ _ _ _ H).
Defined.

(** The same holds for [pushFile]. *)
Theorem pushFile_logged_error : forall read put r e,
  pushFile read put = Ret (r, e) -> (r = pushError <-> e <> None).
Proof.
  intros read put r e H. unfold pushFile in H.
  destruct read as [err|_]; [injection H as <- <-; split; [discriminate|reflexivity]|].
  destruct put as [err|res]; [injection H as <- <-; split; [discriminate|reflexivity]|].
  destruct (JSONValue_key_ret res "result") as [v Hv]. rewrite Hv in H. cbn [go_bind] in H.
  destruct v; try discriminate H.
  repeat match type of H with context [if ?b then _ else _] => destruct b end;
    injection H as <- <-; split; solve [discriminate | intros H; contradiction H; reflexivity].
Qed.

Lemma pushFile_logged_error_witness :
  pushFile (inr "data") (inr (JObj [("result", JStr "File was updated")])) = Ret (pushOK, None) /\
  (pushOK = pushError <-> None <> @None string).
Proof.
  assert (H : pushFile (inr "data") (inr (JObj [("result", JStr "File was updated")]))
              = Ret (pushOK, None)) by reflexivity.
  split; [exact H|]. exact (pushFile_logged_error _ _ _ _ H).
Defined.

(** ** Rewriting and deleting links *)

Lemma ul_fields_keys : forall domain rec fs r,
  ul_fields domain rec fs = Ret r ->
  map fst r = filter (fun k => negb (String.eqb k "_links")) (map fst fs).
Proof.
  intros domain rec fs. induction fs as [|[k fv] fs IH]; intros r H; cbn [ul_fields] in H.
  - injection H as <-. reflexivity.
  - cbn [map fst filter]. destruct (String.eqb k "_links") eqn:Kl; [apply IH, H|].
    cbn [negb]. destruct (String.eqb k "href").
    + destruct fv; try discriminate H.
      destruct (ul_fields domain rec fs) as [rest|]; cbn [go_bind] in H; [|discriminate].
      injection H as <-. cbn. f_equal. apply IH. reflexivity.
    + destruct (ul_value rec fv); cbn [go_bind] in H; [|discriminate].
      destruct (ul_fields domain rec fs) as [rest|]; cbn [go_bind] in H; [|discriminate].
      injection H as <-. cbn. f_equal. apply IH. reflexivity.
Qed.

(** When [updateLinks] completes, the map keeps exactly its keys other
    than ["_links"], in their order. *)
Theorem updateLinks_keys : forall o domain o',
  updateLinks o domain = Ret o' ->
  map fst o' = filter (fun k => negb (String.eqb k "_links")) (map fst o).
Proof.
  intros o domain o' H. unfold updateLinks in H. cbn [updateLinks_val] in H.
  destruct (ul_fields domain (updateLinks_val domain) o) as [m|] eqn:E; cbn [go_bind] in H;
    [|discriminate].
  injection H as <-. apply (ul_fields_keys _ _ _ _ E).
Qed.

Lemma updateLinks_keys_witness :
  updateLinks [("_links", JObj []); ("name", JStr "svc")] "prod" = Ret [("name", JStr "svc")] /\
  map fst [("name", JStr "svc")] =
  filter (fun k => negb (String.eqb k "_links")) (map fst [("_links", JObj []); ("name", JStr "svc")]).
Proof.
  assert (H : updateLinks [("_links", JObj []); ("name", JStr "svc")] "prod"
              = Ret [("name", JStr "svc")]) by reflexivity.
  split; [exact H|]. exact (updateLinks_keys _ _ _ H).
Defined.

(** A map whose ["href"] attribute is not a string makes [updateLinks]
    panic. *)
Theorem updateLinks_href_not_string_panics : forall o domain v,
  map_lookup "href" o = Some v -> (forall s, v <> JStr s) ->
  exists msg, updateLinks o domain = Panic msg.
Proof.
  intros o domain v Hl Hv. unfold updateLinks. cbn [updateLinks_val].
  enough (exists msg, ul_fields domain (updateLinks_val domain) o = Panic msg)
    as [msg ->] by (exists msg; reflexivity).
  induction o as [|[k fv] o IH]; cbn [map_lookup] in Hl; [discriminate|].
  cbn [ul_fields].
  destruct (String.eqb_spec "href" k) as [<-|Hk].
  - injection Hl as ->. cbn. destruct v; try (eexists; reflexivity). contradiction (Hv s). reflexivity.
  - destruct (String.eqb k "_links"); [apply IH, Hl|].
    destruct (String.eqb_spec k "href") as [->|_]; [contradiction Hk; reflexivity|].
    destruct (ul_value (updateLinks_val domain) fv); cbn [go_bind]; [|eexists; reflexivity].
    destruct (IH Hl) as [msg ->]. eexists; reflexivity.
Qed.

Lemma updateLinks_href_not_string_panics_witness :
  map_lookup "href" [("href", JNum 3)] = Some (JNum 3) /\ (forall s, JNum 3 <> JStr s) /\
  exists msg, updateLinks [("href", JNum 3)] "prod" = Panic msg.
Proof.
  assert (H1 : map_lookup "href" [("href", JNum 3)] = Some (JNum 3)) by reflexivity.
  assert (H2 : forall s, JNum 3 <> JStr s) by discriminate.
  split; [exact H1|]. split; [exact H2|].
  exact (updateLinks_href_not_string_panics _ _ _ H1 H2).
Defined.

Lemma deleteLinks_val_free : forall v v', deleteLinks_val v = Ret v' -> links_free v' = true.
Proof.
  intros v. induction v as [| b | n | s | l IHl | m IHm] using json_ind';
    intros v' H; cbn [deleteLinks_val] in H; try (injection H as <-; reflexivity).
  destruct (dl_fields deleteLinks_val m) as [m2|] eqn:E; cbn [go_bind] in H; [|discriminate].
  injection H as <-. revert m2 E. induction m as [|[k x] m IH]; intros m2 E; cbn [dl_fields] in E.
  - injection E as <-. reflexivity.
  - inversion IHm as [|? ? Px Pm]; subst. cbn [snd] in Px.
    destruct (String.eqb k "_links") eqn:Kl; [apply (IH Pm m2 E)|].
    destruct (String.eqb k "href") eqn:Kh; [apply (IH Pm m2 E)|].
    destruct (match x with JNull => _ | JObj _ => _ | _ => _ end) as [nv|] eqn:Ex;
      cbn [go_bind] in E; [|discriminate].
    destruct (dl_fields deleteLinks_val m) as [r|]; cbn [go_bind] in E; [|discriminate].
    injection E as <-. cbn [links_free forallb fst snd]. rewrite Kl, Kh. cbn [negb andb].
    assert (Hnv : links_free nv = true).
    { destruct x; try discriminate Ex; try (injection Ex as <-; reflexivity). apply Px, Ex. }
    rewrite Hnv. apply (IH Pm r eq_refl).
Qed.

(** When [deleteLinks] completes, no ["_links"] and no ["href"] key is
    left in the map or in any map nested in map values. *)
Theorem deleteLinks_links_free : forall o o',
  deleteLinks o = Ret o' -> links_free (JObj o') = true.
Proof.
  intros o o' H. unfold deleteLinks in H.
  destruct (deleteLinks_val (JObj o)) as [r|] eqn:E; cbn [go_bind] in H; [|discriminate].
  pose proof (deleteLinks_val_free _ _ E) as Hf.
  cbn [deleteLinks_val] in E. destruct (dl_fields deleteLinks_val o); cbn [go_bind] in E; [|discriminate].
  injection E as <-. injection H as <-. exact Hf.
Qed.

Lemma deleteLinks_links_free_witness :
  deleteLinks [("_links", JObj []); ("mq", JObj [("href", JStr "/x"); ("n", JNum 1)])]
    = Ret [("mq", JObj [("n", JNum 1)])] /\
  links_free (JObj [("mq", JObj [("n", JNum 1)])]) = true.
Proof.
  assert (H : deleteLinks [("_links", JObj []); ("mq", JObj [("href", JStr "/x"); ("n", JNum 1)])]
              = Ret [("mq", JObj [("n", JNum 1)])]) by reflexivity.
  split; [exact H|]. exact (deleteLinks_links_free _ _ H).
Defined.

(** A kept attribute (not ["_links"] or ["href"]) holding [null] makes
    [deleteLinks] panic. *)
Theorem deleteLinks_null_panics : forall o k,
  map_lookup k o = Some JNull -> k <> "_links"%string -> k <> "href"%string ->
  exists msg, deleteLinks o = Panic msg.
Proof.
  intros o k Hl H1 H2. unfold deleteLinks. cbn [deleteLinks_val].
  enough (exists msg, dl_fields deleteLinks_val o = Panic msg)
    as [msg ->] by (exists msg; reflexivity).
  induction o as [|[k' fv] o IH]; cbn [map_lookup] in Hl; [discriminate|].
  cbn [dl_fields].
  destruct (String.eqb_spec k k') as [<-|Hk].
  - injection Hl as ->. apply String.eqb_neq in H1, H2. rewrite H1, H2.
    eexists; reflexivity.
  - destruct (String.eqb k' "_links"); [apply IH, Hl|].
    destruct (String.eqb k' "href"); [apply IH, Hl|].
    destruct (match fv with JNull => _ | JObj _ => _ | _ => _ end); cbn [go_bind];
      [|eexists; reflexivity].
    destruct (IH Hl) as [msg ->]. eexists; reflexivity.
Qed.

Lemma deleteLinks_null_panics_witness :
  map_lookup "mq" [("href", JStr "/x"); ("mq", JNull)] = Some JNull /\
  "mq"%string <> "_links"%string /\ "mq"%string <> "href"%string /\
  exists msg, deleteLinks [("href", JStr "/x"); ("mq", JNull)] = Panic msg.
Proof.
  assert (H1 : map_lookup "mq" [("href", JStr "/x"); ("mq", JNull)] = Some JNull)
    by reflexivity.
  assert (H2 : "mq"%string <> "_links"%string) by discriminate.
  assert (H3 : "mq"%string <> "href"%string) by discriminate.
  split; [exact H1|]. split; [exact H2|]. split; [exact H3|].
  exact (deleteLinks_null_panics _ _ H1 H2 H3).
Defined.

Lemma Sort_no_deps_sorted_witness :
  NoDup (map oi_QName [obj_f; obj_e; obj_d]) /\
  (forall o ds d, In o [obj_f; obj_e; obj_d] -> oi_depend o = Some ds -> In d ds ->
     d <> oi_QName o -> ~ In d (map oi_QName [obj_f; obj_e; obj_d])) /\
  map oi_QName (Sort ObjectInfo oi_QName oi_depend [obj_f; obj_e; obj_d])
  = sort_Strings (map oi_QName [obj_f; obj_e; obj_d]).
Proof.
  assert (H1 : NoDup (map oi_QName [obj_f; obj_e; obj_d])).
  { cbv. constructor; [intros [H|[H|[]]]; discriminate H|].
    constructor; [intros [H|[]]; discriminate H|]. constructor; [intros []|constructor]. }
  assert (H2 : forall o ds d, In o [obj_f; obj_e; obj_d] -> oi_depend o = Some ds -> In d ds ->
     d <> oi_QName o -> ~ In d (map oi_QName [obj_f; obj_e; obj_d])).
  { intros o ds d [<-|[<-|[<-|[]]]] E; cbv in E; try discriminate E; injection E as <-.
    - intros [<-|[<-|[]]] Hn; [contradiction Hn; reflexivity|].
      cbv. intros [H|[H|[H|[]]]]; discriminate H.
    - intros [<-|[]] _. cbv. intros [H|[H|[H|[]]]]; discriminate H. }
  split; [exact H1|]. split; [exact H2|].
  exact (Sort_no_deps_sorted ObjectInfo oi_QName oi_depend _ H1 H2).
Defined.

(** ** Indexing the project's objects and files *)

Lemma existsb_key : forall (m : list (string * Package)) k,
  existsb (fun e => String.eqb (fst e) k) m = true <-> In k (map fst m).
Proof.
  intros m k. rewrite existsb_exists. split.
  - intros [[k' v] [Hin E]]. apply String.eqb_eq in E. cbn in E. subst k'.
    apply in_map_iff. exists (k, v). split; [reflexivity|exact Hin].
  - intros Hin. apply in_map_iff in Hin as [[k' v] [E Hin]]. cbn in E. subst k'.
    exists (k, v). split; [exact Hin|apply String.eqb_refl].
Qed.

Lemma fold_index_add : forall pkg ks m,
  NoDup (map fst m) ->
  NoDup (map fst (fold_left (index_add pkg) ks m)) /\
  forall k v, In (k, v) (fold_left (index_add pkg) ks m) <->
              In (k, v) m \/ (~ In k (map fst m) /\ v = pkg /\ In k ks).
Proof.
  intros pkg ks. induction ks as [|k0 ks IH]; intros m Hnd; cbn [fold_left].
  - split; [exact Hnd|]. intros k v. split; [auto|intros [H|[_ [_ []]]]; exact H].
  - destruct (existsb (fun e => String.eqb (fst e) k0) m) eqn:E.
    + assert (Ea : index_add pkg m k0 = m) by (unfold index_add; rewrite E; reflexivity).
      rewrite Ea. apply existsb_key in E. destruct (IH m Hnd) as [H1 H2]. split; [exact H1|].
      intros k v. rewrite H2. split.
      * intros [H|[Hk [Hv Hin]]]; [left; exact H|right; split; [exact Hk|split; [exact Hv|right; exact Hin]]].
      * intros [H|[Hk [Hv [<-|Hin]]]]; [left; exact H|contradiction|right; auto].
    + assert (Ea : index_add pkg m k0 = m ++ [(k0, pkg)])
        by (unfold index_add; rewrite E; reflexivity).
      rewrite Ea.
      assert (E' : ~ In k0 (map fst m)) by (intros H; apply existsb_key in H; congruence).
      assert (Hnd1 : NoDup (map fst (m ++ [(k0, pkg)]))).
      { rewrite map_app. cbn. apply NoDup_app; [exact Hnd|constructor; [intros []|constructor]|].
        intros x Hx [<-|[]]. contradiction. }
      destruct (IH _ Hnd1) as [H1 H2]. split; [exact H1|].
      intros k v. rewrite H2, in_app_iff, map_app, in_app_iff. cbn.
      destruct (String.eqb_spec k0 k) as [<-|Hne].
      * split.
        -- intros [[H|[H|[]]]|[Hk _]]; [left; exact H|injection H as <-; right; auto|].
           exfalso. apply Hk. right. left. reflexivity.
        -- intros [H|[_ [-> _]]]; left; [left; exact H|right; left; reflexivity].
      * split.
        -- intros [[H|[H|[]]]|[Hk [Hv Hin]]]; [left; exact H|injection H as ->; contradiction|].
           right. split; [intros H; apply Hk; left; exact H|split; [exact Hv|right; exact Hin]].
        -- intros [H|[Hk [Hv [H|Hin]]]]; [left; left; exact H|contradiction|].
           right. split; [|split; [exact Hv|exact Hin]].
           intros [H|[H|[]]]; [contradiction|contradiction].
Qed.

Lemma find_app_first : forall {A} (f : A -> bool) a b,
  find f (a ++ b) = match find f a with Some x => Some x | None => find f b end.
Proof.
  intros A f a b. induction a as [|x a IH]; [reflexivity|]. cbn. destruct (f x); [reflexivity|exact IH].
Qed.

Lemma index_pkgs_inv : forall stat walk sub L donep m0 m,
  index_pkgs stat walk sub L m0 = Ret (inr m) ->
  NoDup (map fst m0) ->
  (forall k v, In (k, v) m0 <-> find (fun p => pkg_has stat walk sub p k) donep = Some v) ->
  NoDup (map fst m) /\
  (forall k v, In (k, v) m <-> find (fun p => pkg_has stat walk sub p k) (donep ++ L) = Some v) /\
  Forall (fun p => stat (pkg_sub_dir sub p) = NotExist \/
                   (stat (pkg_sub_dir sub p) = IsDirEntry /\
                    exists ks, walk (pkg_sub_dir sub p) = inr ks)) L.
Proof.
  intros stat walk sub L. induction L as [|pkg L IH]; intros donep m0 m H Hnd Hm; cbn [index_pkgs] in H.
  - injection H as <-. rewrite app_nil_r. auto.
  - destruct (stat (pkg_sub_dir sub pkg)) eqn:Es; try discriminate H.
    + destruct (IH (donep ++ [pkg]) m0 m H Hnd) as [H1 [H2 H3]].
      * intros k v. rewrite Hm, find_app_first.
        assert (Hp : pkg_has stat walk sub pkg k = false) by (unfold pkg_has; rewrite Es; reflexivity).
        cbn [find]. rewrite Hp.
        destruct (find _ donep); split; auto; discriminate.
      * rewrite <- app_assoc in H2. split; [exact H1|]. split; [exact H2|].
        constructor; [left; exact Es|exact H3].
    + destruct (walk (pkg_sub_dir sub pkg)) as [err|ks] eqn:Ew; [discriminate H|].
      destruct (fold_index_add pkg ks m0 Hnd) as [Hnd1 Hm1].
      destruct (IH (donep ++ [pkg]) _ m H Hnd1) as [H1 [H2 H3]].
      * intros k v. rewrite Hm1, Hm, find_app_first.
        assert (Hp : pkg_has stat walk sub pkg k = existsb (String.eqb k) ks)
          by (unfold pkg_has; rewrite Es, Ew; reflexivity).
        cbn [find]. rewrite Hp.
        assert (Hk : In k (map fst m0) <-> exists v', find (fun p => pkg_has stat walk sub p k) donep = Some v').
        { split.
          - intros Hin. apply in_map_iff in Hin as [[k' v'] [E Hin]]. cbn in E. subst k'.
            exists v'. apply Hm, Hin.
          - intros [v' Hv']. apply Hm in Hv'. apply in_map_iff. exists (k, v'). auto. }
        destruct (find _ donep) as [v0|] eqn:Ef.
        -- split; [intros [Hin|[Hn _]]; [exact Hin|exfalso; apply Hn, Hk; eauto]|].
           intros Hv. left. exact Hv.
        -- split.
           ++ intros [Hin|[_ [-> Hin]]]; [discriminate Hin|].
              assert (Hb : existsb (String.eqb k) ks = true).
              { apply existsb_exists. exists k. split; [exact Hin|apply String.eqb_refl]. }
              rewrite Hb. reflexivity.
           ++ destruct (existsb (String.eqb k) ks) eqn:Eb; [|discriminate].
              intros Hv. injection Hv as <-. right. split; [intros Hin; apply Hk in Hin as [? Hx]; discriminate Hx|].
              split; [reflexivity|]. apply existsb_exists in Eb as [k' [Hk' E]].
              apply String.eqb_eq in E. subst k'. exact Hk'.
      * rewrite <- app_assoc in H2. split; [exact H1|]. split; [exact H2|].
        constructor; [right; split; [exact Es|exists ks; exact Ew]|exact H3].
Qed.

Lemma find_sorted_min : forall (f : Package -> bool) L p,
  StronglySorted prio_le L -> find f L = Some p ->
  forall q, In q L -> f q = true -> Priority p <= Priority q.
Proof.
  intros f L. induction L as [|x L IH]; intros p Hs Hf q Hq Hfq; [discriminate Hf|].
  apply StronglySorted_inv in Hs as [Hs Hx]. cbn in Hf. destruct (f x) eqn:E.
  - injection Hf as <-. destruct Hq as [<-|Hq]; [lia|]. exact (proj1 (Forall_forall _ _) Hx q Hq).
  - destruct Hq as [<-|Hq]; [congruence|]. exact (IH p Hs Hf q Hq Hfq).
Qed.

Lemma index_sorted_spec : forall stat walk sub pkgs m,
  index_pkgs stat walk sub (PackageSlice_Sort pkgs) [] = Ret (inr m) ->
  NoDup (map fst m) /\
  (forall k p, In (k, p) m ->
     In p pkgs /\ pkg_has stat walk sub p k = true /\
     forall q, In q pkgs -> pkg_has stat walk sub q k = true -> Priority p <= Priority q) /\
  (forall p k, In p pkgs -> pkg_has stat walk sub p k = true -> exists p', In (k, p') m) /\
  (forall p, In p pkgs -> stat (pkg_sub_dir sub p) = NotExist \/
     (stat (pkg_sub_dir sub p) = IsDirEntry /\ exists ks, walk (pkg_sub_dir sub p) = inr ks)).
Proof.
  intros stat walk sub pkgs m H.
  destruct (index_pkgs_inv stat walk sub _ [] [] m H (NoDup_nil _)) as [H1 [H2 H3]].
  { intros k v. split; [intros []|discriminate]. }
  cbn [app] in H2.
  assert (P : Permutation (PackageSlice_Sort pkgs) pkgs) by apply insertionSort_perm.
  assert (Hs : StronglySorted prio_le (PackageSlice_Sort pkgs)) by apply insertionSort_sorted.
  split; [exact H1|]. split; [|split].
  - intros k p Hin. apply H2 in Hin. pose proof (find_some _ _ Hin) as [Hp Hh].
    split; [apply (Permutation_in _ P), Hp|]. split; [exact Hh|].
    intros q Hq Hqk. apply (find_sorted_min _ _ p Hs Hin q); [|exact Hqk].
    apply (Permutation_in _ (Permutation_sym P)), Hq.
  - intros p k Hp Hpk. destruct (find (fun p => pkg_has stat walk sub p k) (PackageSlice_Sort pkgs))
      as [p'|] eqn:Ef.
    + exists p'. apply H2, Ef.
    + exfalso. pose proof (find_none _ _ Ef p) as Hn. cbn beta in Hn.
      rewrite Hn in Hpk; [discriminate|]. apply (Permutation_in _ (Permutation_sym P)), Hp.
  - intros p Hp. exact (proj1 (Forall_forall _ _) H3 p (Permutation_in _ (Permutation_sym P) Hp)).
Qed.

(** For a project of at most 12 packages: when [GetProjectObjects]
    succeeds, its map has one entry per qname, every package's [objects]
    directory was missing or a directory that was walked without error,
    each qname recorded by some package is in the map, and it is mapped to
    a package recording it whose priority is lowest among the packages
    recording it. *)
Theorem GetProjectObjects_first_wins : forall stat walk pkgs m,
  List.length pkgs <= 12 ->
  GetProjectObjects stat walk pkgs = Ret (inr m) ->
  NoDup (map fst m) /\
  (forall qn p, In (qn, p) m ->
     In p pkgs /\ pkg_has stat walk "objects" p qn = true /\
     forall q, In q pkgs -> pkg_has stat walk "objects" q qn = true -> Priority p <= Priority q) /\
  (forall p qn, In p pkgs -> pkg_has stat walk "objects" p qn = true -> exists p', In (qn, p') m) /\
  (forall p, In p pkgs -> stat (pkg_sub_dir "objects" p) = NotExist \/
     (stat (pkg_sub_dir "objects" p) = IsDirEntry /\
      exists ks, walk (pkg_sub_dir "objects" p) = inr ks)).
Proof. intros stat walk pkgs m _ H. exact (index_sorted_spec stat walk "objects" pkgs m H). Qed.

Lemma GetProjectObjects_first_wins_witness :
  List.length [pkgA; pkgB] <= 12 /\
  GetProjectObjects layout_dirs layout_walk [pkgA; pkgB] = Ret (inr [("svc/x", pkgB); ("svc/y", pkgA)]) /\
  NoDup (map fst [("svc/x", pkgB); ("svc/y", pkgA)]) /\
  (forall qn p, In (qn, p) [("svc/x", pkgB); ("svc/y", pkgA)] ->
     In p [pkgA; pkgB] /\ pkg_has layout_dirs layout_walk "objects" p qn = true /\
     forall q, In q [pkgA; pkgB] -> pkg_has layout_dirs layout_walk "objects" q qn = true ->
               Priority p <= Priority q) /\
  (forall p qn, In p [pkgA; pkgB] -> pkg_has layout_dirs layout_walk "objects" p qn = true ->
     exists p', In (qn, p') [("svc/x", pkgB); ("svc/y", pkgA)]) /\
  (forall p, In p [pkgA; pkgB] -> layout_dirs (pkg_sub_dir "objects" p) = NotExist \/
     (layout_dirs (pkg_sub_dir "objects" p) = IsDirEntry /\
      exists ks, layout_walk (pkg_sub_dir "objects" p) = inr ks)).
Proof.
  assert (H : GetProjectObjects layout_dirs layout_walk [pkgA; pkgB]
              = Ret (inr [("svc/x", pkgB); ("svc/y", pkgA)])) by reflexivity.
  assert (Hl : List.length [pkgA; pkgB] <= 12) by (simpl; lia).
  split; [exact Hl|]. split; [exact H|]. exact (GetProjectObjects_first_wins _ _ _ _ Hl H).
Defined.

(** The same holds for [GetProjectFiles], its relative paths and the
    packages' [files] directories. *)
Theorem GetProjectFiles_first_wins : forall stat walk pkgs m,
  List.length pkgs <= 12 ->
  GetProjectFiles stat walk pkgs = Ret (inr m) ->
  NoDup (map fst m) /\
  (forall path p, In (path, p) m ->
     In p pkgs /\ pkg_has stat walk "files" p path = true /\
     forall q, In q pkgs -> pkg_has stat walk "files" q path = true -> Priority p <= Priority q) /\
  (forall p path, In p pkgs -> pkg_has stat walk "files" p path = true -> exists p', In (path, p') m) /\
  (forall p, In p pkgs -> stat (pkg_sub_dir "files" p) = NotExist \/
     (stat (pkg_sub_dir "files" p) = IsDirEntry /\
      exists ks, walk (pkg_sub_dir "files" p) = inr ks)).
Proof. intros stat walk pkgs m _ H. exact (index_sorted_spec stat walk "files" pkgs m H). Qed.

Lemma GetProjectFiles_first_wins_witness :
  List.length [pkgA; pkgB] <= 12 /\
  GetProjectFiles (fun _ => IsDirEntry) (fun _ => inr ["local/a.txt"]) [pkgA; pkgB]
    = Ret (inr [("local/a.txt", pkgB)]) /\
  NoDup (map fst [("local/a.txt", pkgB)]) /\
  (forall path p, In (path, p) [("local/a.txt", pkgB)] ->
     In p [pkgA; pkgB] /\ pkg_has (fun _ => IsDirEntry) (fun _ => inr ["local/a.txt"]) "files" p path = true /\
     forall q, In q [pkgA; pkgB] ->
       pkg_has (fun _ => IsDirEntry) (fun _ => inr ["local/a.txt"]) "files" q path = true ->
       Priority p <= Priority q) /\
  (forall p path, In p [pkgA; pkgB] ->
     pkg_has (fun _ => IsDirEntry) (fun _ => inr ["local/a.txt"]) "files" p path = true ->
     exists p', In (path, p') [("local/a.txt", pkgB)]) /\
  (forall p, In p [pkgA; pkgB] -> (fun _ => IsDirEntry) (pkg_sub_dir "files" p) = NotExist \/
     ((fun _ => IsDirEntry) (pkg_sub_dir "files" p) = IsDirEntry /\
      exists ks, (fun _ => @inr string (list string) ["local/a.txt"]) (pkg_sub_dir "files" p) = inr ks)).
Proof.
  assert (H : GetProjectFiles (fun _ => IsDirEntry) (fun _ => inr ["local/a.txt"]) [pkgA; pkgB]
              = Ret (inr [("local/a.txt", pkgB)])) by reflexivity.
  assert (Hl : List.length [pkgA; pkgB] <= 12) by (simpl; lia).
  split; [exact Hl|]. split; [exact H|]. exact (GetProjectFiles_first_wins _ _ _ _ Hl H).
Defined.

(** A stat error other than not-exist on a package's [objects]
    directory is not returned as an error: when every package's
    directory is missing or fails to stat, and one fails,
    [GetProjectObjects] panics on the [nil] [FileInfo]. *)
Theorem GetProjectObjects_stat_error_panics : forall stat walk pkgs p e,
  In p pkgs -> stat (pkg_sub_dir "objects" p) = StatErr e ->
  (forall q, In q pkgs -> stat (pkg_sub_dir "objects" q) = NotExist \/
                          exists e', stat (pkg_sub_dir "objects" q) = StatErr e') ->
  exists msg, GetProjectObjects stat walk pkgs = Panic msg.
Proof.
  intros stat walk pkgs p e Hp He Hall. unfold GetProjectObjects.
  assert (P : Permutation (PackageSlice_Sort pkgs) pkgs) by apply insertionSort_perm.
  assert (Hp' : In p (PackageSlice_Sort pkgs)) by (apply (Permutation_in _ (Permutation_sym P)), Hp).
  assert (Hall' : forall q, In q (PackageSlice_Sort pkgs) -> stat (pkg_sub_dir "objects" q) = NotExist \/
                          exists e', stat (pkg_sub_dir "objects" q) = StatErr e')
    by (intros q Hq; apply Hall, (Permutation_in _ P), Hq).
  clear Hp Hall P. generalize (@nil (string * Package)) as m.
  induction (PackageSlice_Sort pkgs) as [|x l IH]; [destruct Hp'|]. intros m. cbn [index_pkgs].
  destruct (Hall' x (or_introl eq_refl)) as [Ex|[e' Ex]]; rewrite Ex; [|eexists; reflexivity].
  destruct Hp' as [<-|Hp']; [congruence|].
  apply IH; [exact Hp'|]. intros q Hq. apply Hall'. right. exact Hq.
Qed.

Lemma GetProjectObjects_stat_error_panics_witness :
  In pkgB [pkgA; pkgB] /\
  (fun d => if String.eqb d "/p/B/objects" then StatErr "permission denied" else NotExist)
    (pkg_sub_dir "objects" pkgB) = StatErr "permission denied" /\
  exists msg, GetProjectObjects
    (fun d => if String.eqb d "/p/B/objects" then StatErr "permission denied" else NotExist)
    layout_walk [pkgA; pkgB] = Panic msg.
Proof.
  assert (H1 : In pkgB [pkgA; pkgB]) by (right; left; reflexivity).
  assert (H2 : (fun d => if String.eqb d "/p/B/objects" then StatErr "permission denied" else NotExist)
                 (pkg_sub_dir "objects" pkgB) = StatErr "permission denied") by reflexivity.
  split; [exact H1|]. split; [exact H2|].
  apply (GetProjectObjects_stat_error_panics _ _ _ _ _ H1 H2).
  intros q [<-|[<-|[]]]; [left; reflexivity|right; eexists; reflexivity].
Defined.

(** ** Hidden paths *)

Lemma take_while_app_stop : forall f a b c,
  f c = false -> Forall (fun x => f x = true) a ->
  take_while f (a ++ c :: b) = a.
Proof.
  intros f a b c Hc Ha. induction Ha as [|x a Hx Ha IH]; cbn; [rewrite Hc; reflexivity|].
  rewrite Hx, IH. reflexivity.
Qed.

Lemma take_while_all : forall f a, Forall (fun x => f x = true) a -> take_while f a = a.
Proof.
  intros f a Ha. induction Ha as [|x a Hx Ha IH]; cbn; [reflexivity|]. rewrite Hx, IH. reflexivity.
Qed.

(** [IsHidden] never panics ([filepath.Base] never returns an empty
    string), and for a path whose last element is [c :: n], after an
    optional directory part ending in a slash and before any number of
    trailing slashes, it reports whether [c] is a dot. *)
Theorem IsHidden_last_element :
  (forall path, exists b, IsHidden path = Ret b) /\
  (forall d c n k, (d = [] \/ exists d', d = d' ++ [slash]) -> ~ In slash (c :: n) ->
     IsHidden (l2s (d ++ c :: n ++ repeat slash k)) = Ret (Ascii.eqb c ".")).
Proof.
  split.
  - intros path. unfold IsHidden, Base. destruct (String.eqb path "").
    + eexists; reflexivity.
    + destruct (rev (take_while _ _)) as [|x e] eqn:E; [eexists; reflexivity|].
      unfold l2s, s2l. rewrite list_ascii_of_string_of_list_ascii. eexists; reflexivity.
  - intros d c n k Hd Hn.
    assert (Hns : Forall (fun x => negb (is_slash x) = true) (c :: n)).
    { apply Forall_forall. intros x Hx. unfold is_slash. destruct (Ascii.eqb_spec x slash) as [->|];
        [contradiction|reflexivity]. }
    assert (Hstrip : drop_while is_slash (rev (d ++ c :: n ++ repeat slash k))
                     = rev (c :: n) ++ rev d).
    { rewrite app_comm_cons, app_assoc, rev_app_distr, rev_repeat.
      rewrite rev_app_distr.
      induction k as [|k IH]; cbn [repeat app drop_while].
      - destruct (rev (c :: n)) as [|y r] eqn:Er; [apply (f_equal (@List.length ascii)) in Er; rewrite length_rev in Er; discriminate|].
        cbn [app drop_while].
        assert (Hy : In y (c :: n)) by (apply in_rev; rewrite Er; left; reflexivity).
        unfold is_slash. destruct (Ascii.eqb_spec y slash) as [->|]; [contradiction|reflexivity].
      - exact IH. }
    set (L := d ++ c :: n ++ repeat slash k) in *.
    assert (Hs : s2l (l2s L) = L) by apply list_ascii_of_string_of_list_ascii.
    assert (Hne : String.eqb (l2s L) "" = false).
    { apply String.eqb_neq. intros E. apply (f_equal s2l) in E. rewrite Hs in E.
      unfold L in E. destruct d; discriminate E. }
    unfold IsHidden, Base. rewrite Hne, Hs, Hstrip, rev_involutive.
    assert (Ht : take_while (fun x => negb (is_slash x)) (rev (c :: n) ++ rev d) = rev (c :: n)).
    { destruct Hd as [->|[d' ->]].
      - rewrite app_nil_r. apply take_while_all. apply Forall_rev, Hns.
      - rewrite rev_app_distr. change (rev [slash] ++ rev d') with (slash :: rev d').
        apply take_while_app_stop; [reflexivity|]. apply Forall_rev, Hns. }
    rewrite Ht, rev_involutive. cbn [rev app]. unfold l2s, s2l.
    rewrite list_ascii_of_string_of_list_ascii. reflexivity.
Qed.

(** ** Pulling objects *)

(** When [pullObject] saves, it saves the map fetched by [GetObject], or
    by [GetSingletonObject] after a 404, with its links rewritten by
    [updateLinks], under the class and the name found in the fetched
    object (not the name asked for). *)
Theorem pullObject_saves_fetched : forall domain cls name get single save r e qn o',
  pullObject domain cls name get single save = Ret (r, e, Some (qn, o')) ->
  exists o nm,
    (get = inr (JObj o) \/
     exists err, get = inl err /\ Contains err "HTTP response error: 404 Not Found" = true /\
                 single = inr (JObj o)) /\
    map_get "name" o = JStr nm /\ qn = (cls ++ "/" ++ nm)%string /\ updateLinks o domain = Ret o'.
Proof.
  intros domain cls name get single save r e qn o' H. unfold pullObject in H.
  assert (Hf : forall obj, match get with
                           | inl err => if Contains err "HTTP response error: 404 Not Found" then single else get
                           | inr _ => get end = inr obj ->
               get = inr obj \/ exists err, get = inl err /\
                 Contains err "HTTP response error: 404 Not Found" = true /\ single = inr obj).
  { intros obj E. destruct get as [err|g]; [|left; exact E].
    destruct (Contains err _) eqn:C; [right; exists err; auto|discriminate E]. }
  destruct (match get with
            | inl err => if Contains err "HTTP response error: 404 Not Found" then single else get
            | inr _ => get end) as [err|obj] eqn:Ef; [discriminate H|].
  specialize (Hf obj eq_refl).
  destruct obj as [| | | | |o]; cbn [JSONValue go_bind] in H; try discriminate H.
  destruct (map_get "name" o) as [| | |nm| |] eqn:En; try discriminate H.
  destruct (updateLinks o domain) as [o2|] eqn:Eu; cbn [go_bind] in H; [|discriminate H].
  exists o, nm. split; [exact Hf|]. split; [exact En|].
  destruct save as [err|new]; injection H as _ _ <- <-; auto.
Qed.

Lemma pullObject_saves_fetched_witness :
  pullObject "prod" "XMLFW" "svc" (inl "HTTP response error: 404 Not Found")
    (inr (JObj [("name", JStr "svc2"); ("_links", JObj [])])) (inr true)
    = Ret (pullNew, None, Some ("XMLFW/svc2", [("name", JStr "svc2")])) /\
  exists o nm,
    (@inl string json "HTTP response error: 404 Not Found" = inr (JObj o) \/
     exists err, @inl string json "HTTP response error: 404 Not Found" = inl err /\
                 Contains err "HTTP response error: 404 Not Found" = true /\
                 @inr string json (JObj [("name", JStr "svc2"); ("_links", JObj [])]) = inr (JObj o)) /\
    map_get "name" o = JStr nm /\ "XMLFW/svc2"%string = ("XMLFW" ++ "/" ++ nm)%string /\
    updateLinks o "prod" = Ret [("name", JStr "svc2")].
Proof.
  assert (H : pullObject "prod" "XMLFW" "svc" (inl "HTTP response error: 404 Not Found")
                (inr (JObj [("name", JStr "svc2"); ("_links", JObj [])])) (inr true)
              = Ret (pullNew, None, Some ("XMLFW/svc2", [("name", JStr "svc2")])))
    by (vm_compute; reflexivity).
  split; [exact H|]. exact (pullObject_saves_fetched _ _ _ _ _ _ _ _ _ _ H).
Defined.

(** A fetched object whose ["name"] is missing or not a string makes
    [pullObject] panic, before anything is saved: whether it came from
    [GetObject] or, after a 404, from [GetSingletonObject]. *)
Theorem pullObject_name_not_string_panics : forall domain cls name get single save obj,
  (get = inr obj \/
   exists err, get = inl err /\ Contains err "HTTP response error: 404 Not Found" = true /\
               single = inr obj) ->
  (forall s, JSONValue obj [PStr "name"] <> Ret (JStr s)) ->
  exists msg, pullObject domain cls name get single save = Panic msg.
Proof.
  intros domain cls name get single save obj Hg Hn. unfold pullObject.
  destruct Hg as [->|[err [-> [Hc ->]]]]; cbv beta iota zeta; [|rewrite Hc];
    destruct (JSONValue_key_ret obj "name") as [v Hv]; rewrite Hv; cbn [go_bind];
    (destruct v; try (eexists; reflexivity)); exfalso; exact (Hn s Hv).
Qed.

Lemma pullObject_name_not_string_panics_witness :
  (inl "HTTP response error: 404 Not Found" = @inr string json (JObj [("mode", JStr "on")]) \/
   exists err, @inl string json "HTTP response error: 404 Not Found" = inl err /\
     Contains err "HTTP response error: 404 Not Found" = true /\
     @inr string json (JObj [("mode", JStr "on")]) = inr (JObj [("mode", JStr "on")])) /\
  (forall s, JSONValue (JObj [("mode", JStr "on")]) [PStr "name"] <> Ret (JStr s)) /\
  exists msg, pullObject "prod" "XMLFW" "svc" (inl "HTTP response error: 404 Not Found")
                (inr (JObj [("mode", JStr "on")])) (inr false) = Panic msg.
Proof.
  assert (Hg : inl "HTTP response error: 404 Not Found" = @inr string json (JObj [("mode", JStr "on")]) \/
   exists err, @inl string json "HTTP response error: 404 Not Found" = inl err /\
     Contains err "HTTP response error: 404 Not Found" = true /\
     @inr string json (JObj [("mode", JStr "on")]) = inr (JObj [("mode", JStr "on")])).
  { right. exists "HTTP response error: 404 Not Found". split; [reflexivity|].
    split; [vm_compute; reflexivity|reflexivity]. }
  assert (H : forall s, JSONValue (JObj [("mode", JStr "on")]) [PStr "name"] <> Ret (JStr s))
    by (intros s; discriminate).
  split; [exact Hg|]. split; [exact H|].
  exact (pullObject_name_not_string_panics _ _ _ _ _ _ _ Hg H).
Defined.

Lemma l2s_app : forall a b, l2s (a ++ b) = (l2s a ++ l2s b)%string.
Proof. induction a as [|c a IH]; intros b; cbn; [reflexivity|]. f_equal. apply IH. Qed.

Lemma Replace1_prefix : forall domain rest,
  Replace1 (href_pattern domain ++ rest) (href_pattern domain) href_template
  = (href_template ++ rest)%string.
Proof.
  intros domain rest. unfold Replace1.
  destruct (String.eqb_spec (href_pattern domain) href_template) as [E|_]; [rewrite E; reflexivity|].
  rewrite s2l_app.
  assert (Hr : forall old new t, replace_first old new (old ++ t) = new ++ t).
  { intros old new t. pose proof (starts_with_app old t) as Hs. pose proof (skipn_length_app old t) as Hk.
    revert Hs Hk. destruct (old ++ t); intros Hs Hk; cbn [replace_first]; rewrite Hs, Hk; reflexivity. }
  rewrite Hr, l2s_app. unfold l2s, s2l. rewrite !string_of_list_ascii_of_string. reflexivity.
Qed.

(** A map whose ["href"] starts with ["/mgmt/config/<domain>/"] has it
    rewritten by [updateLinks] to start with ["/mgmt/config/{domain}/"]
    instead, the rest of the link unchanged. *)
Theorem updateLinks_href_template : forall o domain rest o',
  map_lookup "href" o = Some (JStr (href_pattern domain ++ rest)) ->
  updateLinks o domain = Ret o' ->
  map_lookup "href" o' = Some (JStr (href_template ++ rest)).
Proof.
  intros o domain rest o' Hl H. unfold updateLinks in H. cbn [updateLinks_val] in H.
  destruct (ul_fields domain (updateLinks_val domain) o) as [m|] eqn:E; cbn [go_bind] in H;
    [|discriminate].
  injection H as <-. remember (href_pattern domain ++ rest)%string as h eqn:Eh.
  revert m E. induction o as [|[k fv] o IH]; intros m E;
    cbn [map_lookup] in Hl; [discriminate|].
  cbn [ul_fields] in E.
  destruct (String.eqb_spec "href" k) as [<-|Hk].
  - injection Hl as ->. cbn -[href_pattern Replace1 href_template ul_fields] in E.
    destruct (ul_fields domain (updateLinks_val domain) o) as [r|]; cbn [go_bind] in E; [|discriminate].
    injection E as <-. cbn -[href_pattern Replace1 href_template]. rewrite Eh, Replace1_prefix. reflexivity.
  - destruct (String.eqb k "_links"); [apply (IH Hl m E)|].
    destruct (String.eqb_spec k "href") as [->|_]; [contradiction Hk; reflexivity|].
    destruct (ul_value (updateLinks_val domain) fv); cbn [go_bind] in E; [|discriminate].
    destruct (ul_fields domain (updateLinks_val domain) o) as [r|]; cbn [go_bind] in E; [|discriminate].
    injection E as <-. cbn [map_lookup].
    destruct (String.eqb_spec "href" k) as [E0|_]; [contradiction|].
    apply (IH Hl r eq_refl).
Qed.

Lemma updateLinks_href_template_witness :
  map_lookup "href" [("href", JStr (href_pattern "prod" ++ "XMLFW/svc"))]
    = Some (JStr (href_pattern "prod" ++ "XMLFW/svc")) /\
  updateLinks [("href", JStr (href_pattern "prod" ++ "XMLFW/svc"))] "prod"
    = Ret [("href", JStr "/mgmt/config/{domain}/XMLFW/svc")] /\
  map_lookup "href" [("href", JStr "/mgmt/config/{domain}/XMLFW/svc")]
    = Some (JStr (href_template ++ "XMLFW/svc")).
Proof.
  assert (H1 : map_lookup "href" [("href", JStr (href_pattern "prod" ++ "XMLFW/svc"))]
               = Some (JStr (href_pattern "prod" ++ "XMLFW/svc"))) by reflexivity.
  assert (H2 : updateLinks [("href", JStr (href_pattern "prod" ++ "XMLFW/svc"))] "prod"
               = Ret [("href", JStr "/mgmt/config/{domain}/XMLFW/svc")]) by (vm_compute; reflexivity).
  split; [exact H1|]. split; [exact H2|]. exact (updateLinks_href_template _ _ _ _ H1 H2).
Defined.
